(** * AutoAttack: the evaluation orchestrator of [autoattack.py]

    A shallow embedding of the class [AutoAttack]: its constructor, the
    reconciliation of the attack list with the [plus] flag, the per-stage
    batching loop of [run_standard_evaluation], [clean_accuracy],
    [run_standard_evaluation_individual] and [cheap].

    Conventions of the embedding.
    - A Python method is a function in the monad [M]: it reads and writes
      the object [self], the store of list objects, the wall clock and the
      printed output, and either returns or raises.
    - List objects live in a store ([heap]) and are referred to by
      location: [attacks_to_run] is a reference, it can be [None], and the
      list given to the constructor stays shared with the caller.
    - A tensor indexed along its first axis is a list of rows; the shape of
      an index tensor is carried next to its values, because the rank of a
      batch handed to an attack is decided by it.  What is inside a row is
      not looked into: where the source compares, masks or assigns
      tensors, the model checks that the numbers of rows fit, as the
      source does first, and not the shapes of the rows.
    - The batch size is a natural number.
    - The classifier and the four attacks are the external collaborators:
      they are the variables of the section, as are the shape and the
      memory layout of the input, which the final check depends on. *)

From Stdlib Require Import QArith Ascii.
From stdpp Require Import base list strings gmap.
Close Scope Q_scope.

Set Default Proof Using "Type".

(** ** Exceptions and results *)

Inductive exn :=
| AssertionError
| TypeError
| AttributeError
| ValueError (msg : string)
| ZeroDivisionError
| IndexError
| RuntimeError
| UnboundLocalError
| Upstream (code : nat)
| NoSuchObject.

Inductive result (A : Type) :=
| Ok (a : A)
| Raise (e : exn).
Arguments Ok {A} a.
Arguments Raise {A} e.

(** ** The attack adapters, as the constructor configures them *)

Module APGDAttack.
Record t := mk {
  tf : bool;
  n_restarts : nat;
  n_iter : nat;
  verbose : bool;
  eps : Q;
  norm : string;
  eot_iter : nat;
  rho : Q;
  seed : option Z;
  loss : option string }.
Definition set_n_restarts (n : nat) (a : t) : t :=
  mk (tf a) n (n_iter a) (verbose a) (eps a) (norm a) (eot_iter a) (rho a)
     (seed a) (loss a).
Definition set_seed (s : Z) (a : t) : t :=
  mk (tf a) (n_restarts a) (n_iter a) (verbose a) (eps a) (norm a)
     (eot_iter a) (rho a) (Some s) (loss a).
Definition set_loss (l : string) (a : t) : t :=
  mk (tf a) (n_restarts a) (n_iter a) (verbose a) (eps a) (norm a)
     (eot_iter a) (rho a) (seed a) (Some l).
End APGDAttack.

Module FABAttack.
Record t := mk {
  tf : bool;
  n_restarts : nat;
  n_iter : nat;
  eps : Q;
  seed : option Z;
  norm : string;
  verbose : bool;
  device : string;
  targeted : option bool }.
Definition set_n_restarts (n : nat) (a : t) : t :=
  mk (tf a) n (n_iter a) (eps a) (seed a) (norm a) (verbose a) (device a)
     (targeted a).
Definition set_seed (s : Z) (a : t) : t :=
  mk (tf a) (n_restarts a) (n_iter a) (eps a) (Some s) (norm a) (verbose a)
     (device a) (targeted a).
Definition set_targeted (b : bool) (a : t) : t :=
  mk (tf a) (n_restarts a) (n_iter a) (eps a) (seed a) (norm a) (verbose a)
     (device a) (Some b).
End FABAttack.

Module SquareAttack.
Record t := mk {
  tf : bool;
  p_init : Q;
  n_queries : nat;
  eps : Q;
  norm : string;
  early_stop : bool;
  n_restarts : nat;
  seed : option Z;
  verbose : bool;
  device : string }.
Definition set_n_queries (n : nat) (a : t) : t :=
  mk (tf a) (p_init a) n (eps a) (norm a) (early_stop a) (n_restarts a)
     (seed a) (verbose a) (device a).
Definition set_seed (s : Z) (a : t) : t :=
  mk (tf a) (p_init a) (n_queries a) (eps a) (norm a) (early_stop a)
     (n_restarts a) (Some s) (verbose a) (device a).
End SquareAttack.

Module APGDAttack_targeted.
Record t := mk {
  tf : bool;
  n_restarts : nat;
  n_iter : nat;
  verbose : bool;
  eps : Q;
  norm : string;
  eot_iter : nat;
  rho : Q;
  seed : option Z }.
Definition set_n_restarts (n : nat) (a : t) : t :=
  mk (tf a) n (n_iter a) (verbose a) (eps a) (norm a) (eot_iter a) (rho a)
     (seed a).
Definition set_seed (s : Z) (a : t) : t :=
  mk (tf a) (n_restarts a) (n_iter a) (verbose a) (eps a) (norm a)
     (eot_iter a) (rho a) (Some s).
End APGDAttack_targeted.

(** ** The orchestrator object *)

(** Locations of list objects in the store. *)
Abbreviation loc := nat (only parsing).

Record AutoAttack := mkAutoAttack {
  norm : string;
  epsilon : Q;
  seed : option Z;
  verbose : bool;
  attacks_to_run : option loc;
  plus : bool;
  is_tf_model : bool;
  device : string;
  apgd : APGDAttack.t;
  fab : FABAttack.t;
  square : SquareAttack.t;
  apgd_targeted : APGDAttack_targeted.t }.

Definition set_verbose (b : bool) (a : AutoAttack) : AutoAttack :=
  mkAutoAttack (norm a) (epsilon a) (seed a) b (attacks_to_run a) (plus a)
    (is_tf_model a) (device a) (apgd a) (fab a) (square a) (apgd_targeted a).
Definition set_attacks_to_run (l : option loc) (a : AutoAttack) : AutoAttack :=
  mkAutoAttack (norm a) (epsilon a) (seed a) (verbose a) l (plus a)
    (is_tf_model a) (device a) (apgd a) (fab a) (square a) (apgd_targeted a).
Definition set_plus (b : bool) (a : AutoAttack) : AutoAttack :=
  mkAutoAttack (norm a) (epsilon a) (seed a) (verbose a) (attacks_to_run a) b
    (is_tf_model a) (device a) (apgd a) (fab a) (square a) (apgd_targeted a).
Definition set_apgd (x : APGDAttack.t) (a : AutoAttack) : AutoAttack :=
  mkAutoAttack (norm a) (epsilon a) (seed a) (verbose a) (attacks_to_run a)
    (plus a) (is_tf_model a) (device a) x (fab a) (square a) (apgd_targeted a).
Definition set_fab (x : FABAttack.t) (a : AutoAttack) : AutoAttack :=
  mkAutoAttack (norm a) (epsilon a) (seed a) (verbose a) (attacks_to_run a)
    (plus a) (is_tf_model a) (device a) (apgd a) x (square a) (apgd_targeted a).
Definition set_square (x : SquareAttack.t) (a : AutoAttack) : AutoAttack :=
  mkAutoAttack (norm a) (epsilon a) (seed a) (verbose a) (attacks_to_run a)
    (plus a) (is_tf_model a) (device a) (apgd a) (fab a) x (apgd_targeted a).
Definition set_apgd_targeted (x : APGDAttack_targeted.t) (a : AutoAttack)
  : AutoAttack :=
  mkAutoAttack (norm a) (epsilon a) (seed a) (verbose a) (attacks_to_run a)
    (plus a) (is_tf_model a) (device a) (apgd a) (fab a) (square a) x.

(** ** Output and adapter calls *)

(** What a [print] of the source writes: the format it uses and the values
    it is given, not the text.  The accuracies are exact rationals; an
    attack name is recorded as the loop holds it, where the source hands
    [attack.upper()] and [c.upper()] to the format; numbers formatted from
    tensor contents in the final check are not represented. *)
Inductive message :=
| MsgInitialAccuracy (acc : Q)
| MsgBatch (attack : string) (batch_no n_batches broken size : nat)
| MsgStage (attack : string) (acc : Q) (elapsed : Z)
| MsgFinalCheck (norm : string)
| MsgRobustAccuracy (acc : Q)
| MsgCleanAccuracy (acc : Q)
| MsgIndividual (attack space : string) (acc : Q) (elapsed : Z).

Inductive event :=
| Print (m : message)
| Perturb (attack : string) (shape : list nat).

(** ** The state threaded through the methods *)

Record state := mkState {
  self : AutoAttack;
  heap : gmap loc (list string);
  ticks : nat;
  out : list event }.

Definition M (A : Type) : Type := state → result (A * state).

Definition ret {A} (a : A) : M A := λ s, Ok (a, s).
Definition raise {A} (e : exn) : M A := λ _, Raise e.
Definition bind {A B} (m : M A) (k : A → M B) : M B :=
  λ s, match m s with
       | Ok (a, s') => k a s'
       | Raise e => Raise e
       end.
Definition lift {A} (r : result A) : M A :=
  λ s, match r with Ok a => Ok (a, s) | Raise e => Raise e end.

Notation "'let*' x ':=' m 'in' k" := (bind m (λ x, k))
  (at level 10, x pattern, m at level 100, k at level 200, only parsing).
Notation "m ';;' k" := (bind m (λ _, k))
  (at level 100, k at level 200, right associativity, only parsing).

Definition get_self : M AutoAttack := λ s, Ok (self s, s).
Definition modify_self (f : AutoAttack → AutoAttack) : M unit :=
  λ s, Ok ((), mkState (f (self s)) (heap s) (ticks s) (out s)).
Definition emit (e : event) : M unit :=
  λ s, Ok ((), mkState (self s) (heap s) (ticks s) (out s ++ [e])).
Definition print (m : message) : M unit := emit (Print m).
Definition when (b : bool) (m : M unit) : M unit := if b then m else ret ().

(** ** Numbers *)

(** Python's [n / d] on two ints. *)
Definition py_div (n d : nat) : result Q :=
  if d =? 0 then Raise ZeroDivisionError
  else Ok (Z.of_nat n # Pos.of_nat d)%Q.

(** [int(np.ceil(n / d))]. *)
Definition ceil_div (n d : nat) : result nat :=
  if d =? 0 then Raise ZeroDivisionError
  else Ok ((n + d - 1) / d).

(** Python's [n // d] on two ints. *)
Definition floor_div (n d : nat) : result nat :=
  if d =? 0 then Raise ZeroDivisionError
  else Ok (n / d).

(** The float32 nearest to a natural number, ties to even.  Every number
    up to [2 ^ 24] is a float32; above, only multiples of a power of two
    are. *)
Definition float32 (n : nat) : nat :=
  let m := N.of_nat n in
  let e := N.log2 m in
  if (e <? 24)%N then n
  else
    let ulp := (2 ^ (e - 23))%N in
    let q := (m / ulp)%N in
    let r := (m mod ulp)%N in
    N.to_nat
      (if (2 * r <? ulp)%N then q * ulp
       else if (ulp <? 2 * r)%N then (q + 1) * ulp
       else if N.even q then q * ulp else (q + 1) * ulp)%N.

Definition tab : string := String "009"%char EmptyString.

(** ** Tensors, as far as the orchestrator looks into them *)

(** [torch.sum] of a bool vector. *)
Definition num_true (flags : list bool) : nat :=
  length (filter (λ b : bool, b = true) flags).

(** A tensor of indices: its shape and its values in row-major order. *)
Record idx_tensor := mkIdx {
  ishape : list nat;
  ivals : list nat }.

Fixpoint nonzero_from (i : nat) (flags : list bool) : list nat :=
  match flags with
  | [] => []
  | b :: r => if b then i :: nonzero_from (S i) r else nonzero_from (S i) r
  end.

(** [torch.nonzero(flags, as_tuple=False)] of a vector: one row per true
    entry, one column. *)
Definition nonzero (flags : list bool) : idx_tensor :=
  let v := nonzero_from 0 flags in mkIdx [length v; 1] v.

(** [t.squeeze_()]: every axis of size one is dropped. *)
Definition squeeze_ (t : idx_tensor) : idx_tensor :=
  mkIdx (filter (λ d, d ≠ 1) (ishape t)) (ivals t).

(** [t[start:stop]] on the first axis of an index tensor. *)
Definition idx_slice (t : idx_tensor) (start stop : nat) : result idx_tensor :=
  match ishape t with
  | [] => Raise IndexError
  | d0 :: rest =>
      let n := min stop d0 - start in
      let row := foldr Nat.mul 1 rest in
      Ok (mkIdx (n :: rest) (take (n * row) (drop (start * row) (ivals t))))
  end.

(** [l[start:stop]] on the first axis. *)
Definition slice {A} (l : list A) (start stop : nat) : list A :=
  take (stop - start) (drop start l).

(** [t[idcs]] on the first axis: the rows at the given positions. *)
Definition gather {A} (t : list A) (idcs : list nat) : result (list A) :=
  match mapM (λ i, t !! i) idcs with
  | Some rows => Ok rows
  | None => Raise IndexError
  end.

(** [a.eq(b)] on vectors, with the broadcasting of a one-element operand. *)
Definition tensor_eq (a b : list nat) : result (list bool) :=
  if length a =? length b then Ok (zip_with Nat.eqb a b)
  else match a, b with
       | [x], _ => Ok (map (Nat.eqb x) b)
       | _, [y] => Ok (map (λ x, Nat.eqb x y) a)
       | _, _ => Raise RuntimeError
       end.

(** [t[mask]] with a bool mask: the mask has the extent of [t]. *)
Definition masked {A} (t : list A) (mask : list bool) : result (list A) :=
  if length mask =? length t
  then Ok ((filter (λ p, p.2 = true) (zip t mask)).*1)
  else Raise IndexError.

(** [t[start:stop] = rhs]. *)
Definition slice_assign {A} (t : list A) (start stop : nat) (rhs : list A)
  : result (list A) :=
  let n := length (slice t start stop) in
  if length rhs =? n then Ok (take start t ++ rhs ++ drop (start + n) t)
  else match rhs with
       | [v] => Ok (take start t ++ replicate n v ++ drop (start + n) t)
       | _ => Raise RuntimeError
       end.

(** [t[idcs] = v] for one value [v]. *)
Definition index_fill {A} (t : list A) (idcs : list nat) (v : A)
  : result (list A) :=
  if bool_decide (Forall (λ i, i < length t) idcs)
  then Ok (foldl (λ acc i, <[i:=v]> acc) t idcs)
  else Raise IndexError.

(** [t[idcs] = vals], one value per index. *)
Definition index_put {A} (t : list A) (idcs : list nat) (vals : list A)
  : result (list A) :=
  if bool_decide (Forall (λ i, i < length t) idcs) then
    if length idcs =? length vals
    then Ok (foldl (λ acc iv, <[iv.1:=iv.2]> acc) t (zip idcs vals))
    else Raise RuntimeError
  else Raise IndexError.

(** ** The store of list objects *)

Definition deref (o : option loc) : M (list string) :=
  λ s, match o with
       | None => Raise TypeError
       | Some l => match heap s !! l with
                   | Some v => Ok (v, s)
                   | None => Raise NoSuchObject
                   end
       end.

Definition store (l : loc) (v : list string) : M unit :=
  λ s, Ok ((), mkState (self s) (<[l:=v]> (heap s)) (ticks s) (out s)).

(** A list display [[c1, ..., cn]]: a new object. *)
Definition alloc (v : list string) : M loc :=
  λ s, let l := fresh (dom (heap s)) in
       Ok (l, mkState (self s) (<[l:=v]> (heap s)) (ticks s) (out s)).

(** [x in o]; on [None] Python raises [TypeError]. *)
Definition contains (x : string) (o : option loc) : M bool :=
  let* v := deref o in ret (bool_decide (x ∈ v)).

(** [o.extend(xs)], in place. *)
Definition list_extend (o : option loc) (xs : list string) : M unit :=
  match o with
  | None => raise AttributeError
  | Some l => let* v := deref o in store l (v ++ xs)
  end.

Fixpoint remove_first (x : string) (v : list string) : option (list string) :=
  match v with
  | [] => None
  | y :: r => if String.eqb x y then Some r
              else match remove_first x r with
                   | Some r' => Some (y :: r')
                   | None => None
                   end
  end.

(** [o.remove(x)], in place: the first occurrence goes. *)
Definition list_remove (o : option loc) (x : string) : M unit :=
  match o with
  | None => raise AttributeError
  | Some l =>
      let* v := deref o in
      match remove_first x v with
      | Some v' => store l v'
      | None => raise (ValueError "list.remove(x): x not in list")
      end
  end.

(** A [for] loop without [break], threading the variables it assigns. *)
Fixpoint for_each {A B} (xs : list A) (body : A → B → M B) (b : B) : M B :=
  match xs with
  | [] => ret b
  | x :: r => let* b' := body x b in for_each r body b'
  end.

(** ** [AutoAttack.__init__] *)

(** The list object that is the default of [attacks_to_run]: created once,
    when the class is defined, and shared by every call that omits the
    argument. *)
Definition default_attacks_loc : loc := 0.
Definition default_attacks : list string :=
  ["apgd-ce"; "apgd-dlr"; "fab"; "square"].
Definition module_heap : gmap loc (list string) :=
  {[ default_attacks_loc := default_attacks ]}.

(** [attacks_to_run if not plus else attacks_to_run.extend([...])]:
    [extend] works in place and evaluates to [None]. *)
Definition init_attacks_to_run (attacks_to_run : loc) (plus : bool)
    (h : gmap loc (list string))
  : result (option loc * gmap loc (list string)) :=
  if negb plus then Ok (Some attacks_to_run, h)
  else match h !! attacks_to_run with
       | Some v =>
           Ok (None, <[attacks_to_run := v ++ ["apgd-t"; "fab-t"]]> h)
       | None => Raise NoSuchObject
       end.

Definition __init__ (norm : string) (eps : Q) (seed : option Z)
    (verbose : bool) (attacks_to_run : loc) (plus is_tf_model : bool)
    (device : string) (h : gmap loc (list string))
  : result (AutoAttack * gmap loc (list string)) :=
  if negb (bool_decide (norm ∈ ["Linf"; "L2"])) then Raise AssertionError
  else
    match init_attacks_to_run attacks_to_run plus h with
    | Raise e => Raise e
    | Ok (atr, h') =>
        Ok (mkAutoAttack norm eps seed verbose atr plus is_tf_model device
              (APGDAttack.mk is_tf_model 5 100 false eps norm 1 (3 # 4)%Q
                 seed None)
              (FABAttack.mk is_tf_model 5 100 eps seed norm false device
                 None)
              (SquareAttack.mk is_tf_model (8 # 10)%Q 5000 eps norm true 1
                 seed false device)
              (APGDAttack_targeted.mk is_tf_model 1 100 false eps norm 1
                 (3 # 4)%Q seed),
            h')
    end.

(** ** [AutoAttack.cheap] *)

Definition cheap : M unit :=
  modify_self (λ a, set_apgd (APGDAttack.set_n_restarts 1 (apgd a)) a);;
  modify_self (λ a, set_fab (FABAttack.set_n_restarts 1 (fab a)) a);;
  modify_self (λ a,
    set_apgd_targeted
      (APGDAttack_targeted.set_n_restarts 1 (apgd_targeted a)) a);;
  modify_self (λ a, set_square (SquareAttack.set_n_queries 1000 (square a)) a);;
  modify_self (set_plus false).

(** ** The update of the attack list on entry *)

(** Lines 71-80: with [plus], the two targeted attacks are appended when
    absent; without, their first occurrence is removed when present. *)
Definition update_attacks_list : M unit :=
  let* a := get_self in
  if plus a then
    (let* b := contains "apgd-t" (attacks_to_run a) in
     when (negb b) (list_extend (attacks_to_run a) ["apgd-t"]));;
    (let* b := contains "fab-t" (attacks_to_run a) in
     when (negb b) (list_extend (attacks_to_run a) ["fab-t"]))
  else
    (let* b := contains "apgd-t" (attacks_to_run a) in
     when b (list_remove (attacks_to_run a) "apgd-t"));;
    (let* b := contains "fab-t" (attacks_to_run a) in
     when b (list_remove (attacks_to_run a) "fab-t")).

(** Lines 211-215: the individual run only ever appends. *)
Definition extend_attacks_list : M unit :=
  let* a := get_self in
  if plus a then
    (let* b := contains "apgd-t" (attacks_to_run a) in
     when (negb b) (list_extend (attacks_to_run a) ["apgd-t"]));;
    (let* b := contains "fab-t" (attacks_to_run a) in
     when (negb b) (list_extend (attacks_to_run a) ["fab-t"]))
  else ret ().

(** ** The methods that touch the model and the attacks *)

Section Methods.

Context {Sample Logits : Type}.

(** [x_orig.shape[1:]], the shape of one sample. *)
Variable sample_shape : list nat.

(** A tensor taken as one row of a batch: [stack rows] is the row whose
    first axis lists [rows].  It is what [x.unsqueeze_(dim=0)] makes of
    the rows of [x]. *)
Variable stack : list Sample → Sample.

(** Whether [.view(N, -1)] accepts the memory layout of the tensor
    [x_adv - x_orig] of the final check.  [x_adv] is a clone of [x_orig]
    written in place, so the layout is that of [x_orig]: the answer is yes
    for a contiguous [x_orig] and no, for instance, for a batch of images
    in channels-last format. *)
Variable flat_view : bool.

(** The classifier: [self.model(x)] and [self.model.predict(x)] row by row,
    and [output.max(dim=1)[1]], the predicted class of a row of scores. *)
Variable model : Sample → Logits.
Variable model_predict : Sample → Logits.
Variable argmax : Logits → nat.

(** [time.time()] at its n-th call. *)
Variable wall_clock : nat → Z.

(** The [perturb] of each adapter: given the adapter's configuration, the
    shape and rows of [x] and the labels [y], the rows of the returned
    adversarial batch, or an exception. *)
Variable apgd_perturb :
  APGDAttack.t → list nat → list Sample → list nat → result (list Sample).
Variable fab_perturb :
  FABAttack.t → list nat → list Sample → list nat → result (list Sample).
Variable square_perturb :
  SquareAttack.t → list nat → list Sample → list nat → result (list Sample).
Variable apgd_targeted_perturb :
  APGDAttack_targeted.t → list nat → list Sample → list nat
  → result (list Sample).

Definition get_logits (x : list Sample) : M (list Logits) :=
  let* a := get_self in
  if negb (is_tf_model a) then ret (map model x)
  else ret (map model_predict x).

Definition time : M Z :=
  λ s, Ok (wall_clock (ticks s),
           mkState (self s) (heap s) (S (ticks s)) (out s)).

Definition get_seed : M Z :=
  let* a := get_self in
  match seed a with
  | None => time
  | Some s => ret s
  end.

(** The [, :] of [x_orig[..., :]] asks for a second axis. *)
Definition second_axis : result unit :=
  match sample_shape with
  | [] => Raise IndexError
  | _ => Ok ()
  end.

(** The local variables of [run_standard_evaluation]. *)
Record locals := mkLocals {
  robust_flags : list bool;
  x_adv : list Sample;
  robust_accuracy : Q }.

(** Lines 86-94: one batch of the accuracy pass. *)
Definition accuracy_batch (x_orig : list Sample) (y_orig : list nat)
    (bs : nat) (batch_idx : nat) (robust_flags : list bool)
  : M (list bool) :=
  let start_idx := batch_idx * bs in
  let end_idx := min ((batch_idx + 1) * bs) (length x_orig) in
  lift second_axis;;
  let x := slice x_orig start_idx end_idx in
  let y := slice y_orig start_idx end_idx in
  let* output := get_logits x in
  let* correct_batch := lift (tensor_eq y (map argmax output)) in
  lift (slice_assign robust_flags start_idx end_idx correct_batch).

(** Lines 129-164: the dispatch on the attack's name. *)
Definition run_attack (attack : string) (xshape : list nat)
    (x : list Sample) (y : list nat) : M (list Sample) :=
  if String.eqb attack "apgd-ce" then
    modify_self (λ a, set_apgd (APGDAttack.set_loss "ce" (apgd a)) a);;
    let* sd := get_seed in
    modify_self (λ a, set_apgd (APGDAttack.set_seed sd (apgd a)) a);;
    let* a := get_self in
    emit (Perturb attack xshape);;
    lift (apgd_perturb (apgd a) xshape x y)
  else if String.eqb attack "apgd-dlr" then
    modify_self (λ a, set_apgd (APGDAttack.set_loss "dlr" (apgd a)) a);;
    let* sd := get_seed in
    modify_self (λ a, set_apgd (APGDAttack.set_seed sd (apgd a)) a);;
    let* a := get_self in
    emit (Perturb attack xshape);;
    lift (apgd_perturb (apgd a) xshape x y)
  else if String.eqb attack "fab" then
    modify_self (λ a, set_fab (FABAttack.set_targeted false (fab a)) a);;
    let* sd := get_seed in
    modify_self (λ a, set_fab (FABAttack.set_seed sd (fab a)) a);;
    let* a := get_self in
    emit (Perturb attack xshape);;
    lift (fab_perturb (fab a) xshape x y)
  else if String.eqb attack "square" then
    let* sd := get_seed in
    modify_self (λ a, set_square (SquareAttack.set_seed sd (square a)) a);;
    let* a := get_self in
    emit (Perturb attack xshape);;
    lift (square_perturb (square a) xshape x y)
  else if String.eqb attack "apgd-t" then
    let* sd := get_seed in
    modify_self (λ a,
      set_apgd_targeted
        (APGDAttack_targeted.set_seed sd (apgd_targeted a)) a);;
    let* a := get_self in
    emit (Perturb attack xshape);;
    lift (apgd_targeted_perturb (apgd_targeted a) xshape x y)
  else if String.eqb attack "fab-t" then
    modify_self (λ a, set_fab (FABAttack.set_targeted true (fab a)) a);;
    let* sd := get_seed in
    modify_self (λ a, set_fab (FABAttack.set_seed sd (fab a)) a);;
    let* a := get_self in
    emit (Perturb attack xshape);;
    lift (fab_perturb (fab a) xshape x y)
  else raise (ValueError "Attack not supported").

(** Lines 120-126: the shape of the batch [x] cut out by an index tensor,
    after the correction applied to a tensor of three axes. *)
Definition batch_shape (idcs : idx_tensor) : list nat :=
  let shape := ishape idcs ++ sample_shape in
  if length shape =? 3 then 1 :: shape else shape.

(** Lines 125-126: [x.unsqueeze_(dim=0)] on a batch of three axes.  The
    tensor becomes the only row of a batch of four axes, also when it had
    several rows of its own. *)
Definition batch_rows (idcs : idx_tensor) (x : list Sample) : list Sample :=
  if length (ishape idcs ++ sample_shape) =? 3 then [stack x] else x.

(** Lines 117-176: one batch of one attack.  The rows of [adv_curr] are
    those of the tensor [perturb] returns, whatever their number: the
    comparison with [y] and the two masked selections are those of the
    source and raise as in the source when the extents do not fit. *)
Definition attack_batch (x_orig : list Sample) (y_orig : list nat)
    (bs num_robust n_batches : nat) (attack : string)
    (robust_lin_idcs : idx_tensor) (batch_idx : nat) (l : locals)
  : M locals :=
  let start_idx := batch_idx * bs in
  let end_idx := min ((batch_idx + 1) * bs) num_robust in
  let* batch_datapoint_idcs :=
    lift (idx_slice robust_lin_idcs start_idx end_idx) in
  lift second_axis;;
  let* x := lift (gather x_orig (ivals batch_datapoint_idcs)) in
  let* y := lift (gather y_orig (ivals batch_datapoint_idcs)) in
  let xshape := batch_shape batch_datapoint_idcs in
  let x := batch_rows batch_datapoint_idcs x in
  let* adv_curr := run_attack attack xshape x y in
  let* output := get_logits adv_curr in
  let* still := lift (tensor_eq y (map argmax output)) in
  let false_batch := map negb still in
  let* non_robust_lin_idcs :=
    lift (masked (ivals batch_datapoint_idcs) false_batch) in
  let* flags' := lift (index_fill (robust_flags l) non_robust_lin_idcs false) in
  let* broken := lift (masked adv_curr false_batch) in
  let* x_adv' := lift (index_put (x_adv l) non_robust_lin_idcs broken) in
  let* a := get_self in
  when (verbose a)
    (print (MsgBatch attack (batch_idx + 1) n_batches (num_true false_batch)
              (hd 0 xshape)));;
  ret (mkLocals flags' x_adv' (robust_accuracy l)).

(** Lines 110-181: one attack over the samples that are still robust. *)
Definition run_stage (x_orig : list Sample) (y_orig : list nat) (bs : nat)
    (startt : Z) (attack : string) (l : locals) : M locals :=
  let num_robust := num_true (robust_flags l) in
  let* n_batches := lift (ceil_div num_robust bs) in
  let robust_lin_idcs := nonzero (robust_flags l) in
  let robust_lin_idcs :=
    if 1 <? num_robust then squeeze_ robust_lin_idcs else robust_lin_idcs in
  let* l' :=
    for_each (seq 0 n_batches)
      (attack_batch x_orig y_orig bs num_robust n_batches attack
         robust_lin_idcs) l in
  let* acc := lift (py_div (num_true (robust_flags l')) (length x_orig)) in
  let* a := get_self in
  when (verbose a)
    (let* t := time in print (MsgStage attack acc (t - startt)%Z));;
  ret (mkLocals (robust_flags l') (x_adv l') acc).

(** Lines 103-181: the loop over the attacks, left as soon as no sample is
    robust. *)
Fixpoint stage_loop (x_orig : list Sample) (y_orig : list nat) (bs : nat)
    (startt : Z) (attacks : list string) (l : locals) : M locals :=
  match attacks with
  | [] => ret l
  | attack :: rest =>
      if num_true (robust_flags l) =? 0 then ret l
      else
        let* l' := run_stage x_orig y_orig bs startt attack l in
        stage_loop x_orig y_orig bs startt rest l'
  end.

(** Lines 186 and 188: [.view(x_orig.shape[0], -1)] on a tensor of [n]
    rows of the sample shape.  It raises on a layout it cannot flatten and
    on a tensor without elements, where the extent [-1] stands for is not
    determined. *)
Definition view_rows (n : nat) : result unit :=
  if flat_view && negb (n * foldr Nat.mul 1 sample_shape =? 0) then Ok ()
  else Raise RuntimeError.

(** Lines 184-191: the final check.  The tensor work is done only when
    [verbose] is set; with a norm that is neither ['Linf'] nor ['L2'] the
    variable [res] is not bound when line 189 reads it.  Once the view is
    taken, the differences, maxima and sums of a tensor with elements and
    the formats raise nothing; their values are not represented. *)
Definition final_check (l : locals) : M unit :=
  let* a := get_self in
  when (verbose a)
    ((if String.eqb (norm a) "Linf" then lift (view_rows (length (x_adv l)))
      else if String.eqb (norm a) "L2"
           then lift (view_rows (length (x_adv l)))
           else raise UnboundLocalError);;
     print (MsgFinalCheck (norm a));;
     print (MsgRobustAccuracy (robust_accuracy l))).

(** Lines 70-102: the update of the attack list, the accuracy pass, the
    initial accuracy, the clone of the input and the start of the clock. *)
Definition evaluation_entry (x_orig : list Sample) (y_orig : list nat)
    (bs : nat) : M (Z * locals) :=
  update_attacks_list;;
  let* n_batches := lift (ceil_div (length x_orig) bs) in
  let robust_flags := replicate (length x_orig) false in
  let* robust_flags :=
    for_each (seq 0 n_batches) (accuracy_batch x_orig y_orig bs)
      robust_flags in
  let* robust_accuracy :=
    lift (py_div (num_true robust_flags) (length x_orig)) in
  let* a := get_self in
  when (verbose a) (print (MsgInitialAccuracy robust_accuracy));;
  let x_adv := x_orig in
  let* startt := time in
  ret (startt, mkLocals robust_flags x_adv robust_accuracy).

(** Lines 70-181: [run_standard_evaluation] up to the end of its loop over
    the attacks. *)
Definition evaluation_stages (x_orig : list Sample) (y_orig : list nat)
    (bs : nat) : M locals :=
  let* entry := evaluation_entry x_orig y_orig bs in
  let* a := get_self in
  let* attacks := deref (attacks_to_run a) in
  stage_loop x_orig y_orig bs entry.1 attacks entry.2.

(** [run_standard_evaluation], with its local variables at the [return]. *)
Definition run_standard_evaluation_locals (x_orig : list Sample)
    (y_orig : list nat) (bs : nat) : M locals :=
  let* l := evaluation_stages x_orig y_orig bs in
  final_check l;;
  ret l.

Definition run_standard_evaluation (x_orig : list Sample)
    (y_orig : list nat) (bs : nat) : M (list Sample) :=
  let* l := run_standard_evaluation_locals x_orig y_orig bs in
  ret (x_adv l).

(** The accumulator of [clean_accuracy]: the Python float [0.] it starts
    as, or the float32 tensor it becomes once a batch has been added.  The
    values are whole numbers. *)
Inductive accumulator :=
| PyFloat (v : nat)
| Tensor (v : nat).

(** [(...).float().sum()] of a bool vector: the number of true entries as
    a float32.  Up to [2 ^ 24] the sum is that number in whatever order
    the reduction adds; above, it is taken as rounded once. *)
Definition float_sum (hits : list bool) : nat := float32 (num_true hits).

(** [acc += n] for a float32 tensor [n]: the result is a float32 tensor. *)
Definition acc_add (a : accumulator) (n : nat) : accumulator :=
  match a with
  | PyFloat v => Tensor (float32 (v + n))
  | Tensor v => Tensor (float32 (v + n))
  end.

(** The number an accumulator holds. *)
Definition acc_value (a : accumulator) : nat :=
  match a with PyFloat v | Tensor v => v end.

(** [acc / n]: a float raises on zero, a tensor does not. *)
Definition acc_div (a : accumulator) (n : nat) : result Q :=
  match a with
  | PyFloat v => py_div v n
  | Tensor v => Ok (Z.of_nat v # Pos.of_nat n)%Q
  end.

(** [acc.item()]: a float has no such attribute. *)
Definition acc_item (a : accumulator) : result nat :=
  match a with
  | PyFloat _ => Raise AttributeError
  | Tensor v => Ok v
  end.

(** Lines 198-202: one batch of [clean_accuracy]. *)
Definition clean_batch (x_orig : list Sample) (y_orig : list nat) (bs : nat)
    (counter : nat) (acc : accumulator) : M accumulator :=
  let stop := min ((counter + 1) * bs) (length x_orig) in
  let x := slice x_orig (counter * bs) stop in
  let y := slice y_orig (counter * bs) stop in
  let* output := get_logits x in
  let* hits := lift (tensor_eq (map argmax output) y) in
  ret (acc_add acc (float_sum hits)).

Definition clean_accuracy (x_orig : list Sample) (y_orig : list nat)
    (bs : nat) : M Q :=
  let* n_batches := lift (floor_div (length x_orig) bs) in
  let* acc :=
    for_each (seq 0 n_batches) (clean_batch x_orig y_orig bs) (PyFloat 0) in
  let* a := get_self in
  when (verbose a)
    (let* r := lift (acc_div acc (length x_orig)) in
     print (MsgCleanAccuracy r));;
  let* n := lift (acc_item acc) in
  lift (py_div n (length x_orig)).

(** Lines 224-231: the body of the loop of the individual run. *)
Definition individual_step (x_orig : list Sample) (y_orig : list nat)
    (bs : nat) (verbose_indiv : bool) (c : string)
    (adv : gmap string (list Sample)) : M (gmap string (list Sample)) :=
  let* startt := time in
  let* fresh_list := alloc [c] in
  modify_self (set_attacks_to_run (Some fresh_list));;
  let* adv_c := run_standard_evaluation x_orig y_orig bs in
  let adv := <[c:=adv_c]> adv in
  (if verbose_indiv then
     let* acc_indiv := clean_accuracy adv_c y_orig bs in
     let space := if String.eqb c "fab" then tab +:+ " " +:+ tab else tab in
     let* t := time in
     print (MsgIndividual c space acc_indiv (t - startt)%Z)
   else ret ());;
  ret adv.

Definition run_standard_evaluation_individual (x_orig : list Sample)
    (y_orig : list nat) (bs : nat) : M (gmap string (list Sample)) :=
  extend_attacks_list;;
  let* a := get_self in
  let l_attacks := attacks_to_run a in
  modify_self (set_plus false);;
  let verbose_indiv := verbose a in
  modify_self (set_verbose false);;
  let* cs := deref l_attacks in
  for_each cs (individual_step x_orig y_orig bs verbose_indiv) ∅.

End Methods.

(** ** Vocabulary of the statements *)

(** The names the dispatch of [run_attack] knows. *)
Definition known_attacks : list string :=
  ["apgd-ce"; "apgd-dlr"; "fab"; "square"; "apgd-t"; "fab-t"].

(** What the update on entry makes of a list [v] when [plus] holds. *)
Definition extended (v : list string) : list string :=
  let v1 := if bool_decide ("apgd-t" ∈ v) then v else v ++ ["apgd-t"] in
  if bool_decide ("fab-t" ∈ v1) then v1 else v1 ++ ["fab-t"].

(** What the update on entry makes of a list [v] when [plus] does not
    hold: [remove] takes the first occurrence only. *)
Definition pruned (v : list string) : list string :=
  let v1 := default v (remove_first "apgd-t" v) in
  default v1 (remove_first "fab-t" v1).

(** No flag goes from false back to true between [old] and [new]. *)
Definition never_resurrected (old new : list bool) : Prop :=
  ∀ i, old !! i = Some false → new !! i = Some false.

(** Two objects that differ at most in [verbose], with a fixed seed. *)
Definition agree (a1 a2 : AutoAttack) : Prop :=
  set_verbose false a1 = set_verbose false a2 ∧ is_Some (seed a1).

(** Two states that differ at most in [verbose], the clock and the printed
    output. *)
Definition sim (s1 s2 : state) : Prop :=
  agree (self s1) (self s2) ∧ heap s1 = heap s2.

(** Two outcomes that are both returns, of related values in related
    states, or both the same exception. *)
Definition related {A} (R : A → A → Prop) (r1 r2 : result (A * state))
  : Prop :=
  match r1, r2 with
  | Ok (a1, s1), Ok (a2, s2) => R a1 a2 ∧ sim s1 s2
  | Raise e1, Raise e2 => e1 = e2
  | _, _ => False
  end.


(** A computation that only prints or reads the clock. *)
Definition silent (m : M unit) : Prop :=
  ∀ s, ∃ s', m s = Ok ((), s') ∧ self s' = self s ∧ heap s' = heap s.


(** The frame [cheap] is said to have: no field of the orchestrator itself
    changes. *)
Definition cheap_keeps_orchestrator (s : state) : Prop :=
  ∀ s', cheap s = Ok ((), s') →
    plus (self s') = plus (self s) ∧
    attacks_to_run (self s') = attacks_to_run (self s) ∧
    heap s' = heap s ∧
    norm (self s') = norm (self s) ∧
    epsilon (self s') = epsilon (self s) ∧
    seed (self s') = seed (self s) ∧
    verbose (self s') = verbose (self s).


(** The calls of [perturb] among the events. *)
Definition perturb_shapes (o : list event) : list (list nat) :=
  omap (λ e, match e with Perturb _ sh => Some sh | Print _ => None end) o.

(** The step from the local variables [l] to [l']: the vectors keep their
    length, and a flag that is true in [l'] was true in [l], with the
    adversarial example at that index untouched. *)
Definition shrinks {Sample} (l l' : @locals Sample) : Prop :=
  length (robust_flags l') = length (robust_flags l) ∧
  length (x_adv l') = length (x_adv l) ∧
  ∀ i, robust_flags l' !! i = Some true →
       robust_flags l !! i = Some true ∧ x_adv l' !! i = x_adv l !! i.

(** The step from [s] to [s'] leaves the store and the fields of the
    object that decide what a run does. *)
Definition keeps_config (s s' : state) : Prop :=
  plus (self s') = plus (self s) ∧
  verbose (self s') = verbose (self s) ∧
  attacks_to_run (self s') = attacks_to_run (self s) ∧
  heap s' = heap s ∧
  norm (self s') = norm (self s).



(** The class the model gives to each row of [x]: [get_logits] followed by
    [.max(dim=1)[1]]. *)
Definition predicted {Sample Logits} (model model_predict : Sample → Logits)
    (argmax : Logits → nat) (a : AutoAttack) (x : list Sample) : list nat :=
  map argmax (if negb (is_tf_model a) then map model x
              else map model_predict x).

(** The lines printed, among the events. *)
Definition printed (o : list event) : list message :=
  omap (λ e, match e with Print m => Some m | Perturb _ _ => None end) o.

(** The attack names of the calls of [perturb], among the events. *)
Definition perturb_names (o : list event) : list string :=
  omap (λ e, match e with Perturb a _ => Some a | Print _ => None end) o.


(** ** A small concrete instance

    Samples are numbers, the classifier answers the number itself, so a
    sample [v] is classified correctly when its label is [v]. *)

Module Demo.

Definition shape : list nat := [3; 32; 32].

(** Several samples taken as one: the largest of them. *)
Definition stack (rows : list nat) : nat := foldr Nat.max 0 rows.

(** An attack that moves every even sample to the next class and leaves
    the odd ones where they are. *)
Definition breaks_even (xshape : list nat) (x : list nat) (y : list nat)
  : result (list nat) := Ok (map (λ v, if Nat.even v then S v else v) x).

Definition clock (n : nat) : Z := Z.of_nat n.

Definition auto (verbose plus : bool) : AutoAttack :=
  mkAutoAttack "Linf" (3 # 10)%Q (Some 0%Z) verbose
    (Some default_attacks_loc) plus false "cuda"
    (APGDAttack.mk false 5 100 false (3 # 10)%Q "Linf" 1 (3 # 4)%Q
       (Some 0%Z) None)
    (FABAttack.mk false 5 100 (3 # 10)%Q (Some 0%Z) "Linf" false "cuda" None)
    (SquareAttack.mk false (8 # 10)%Q 5000 (3 # 10)%Q "Linf" true 1
       (Some 0%Z) false "cuda")
    (APGDAttack_targeted.mk false 1 100 false (3 # 10)%Q "Linf" 1 (3 # 4)%Q
       (Some 0%Z)).

Definition start (verbose plus : bool) : state :=
  mkState (auto verbose plus) module_heap 0 [].

(** An object whose list of attacks is [attacks]. *)
Definition start_with (attacks : list string) (verbose plus : bool) : state :=
  mkState (auto verbose plus) {[ default_attacks_loc := attacks ]} 0 [].

(** A run on samples of shape [sample_shape], contiguous or not. *)
Definition evaluate_on (sample_shape : list nat) (flat_view : bool) :=
  @run_standard_evaluation_locals nat nat sample_shape stack flat_view
    id id id clock
    (λ _, breaks_even) (λ _, breaks_even) (λ _, breaks_even)
    (λ _, breaks_even).

Definition evaluate := evaluate_on shape true.

Definition entry :=
  @evaluation_entry nat nat shape id id id clock.

Definition stages :=
  @stage_loop nat nat shape stack id id id clock
    (λ _, breaks_even) (λ _, breaks_even) (λ _, breaks_even)
    (λ _, breaks_even).

Definition stage :=
  @run_stage nat nat shape stack id id id clock
    (λ _, breaks_even) (λ _, breaks_even) (λ _, breaks_even)
    (λ _, breaks_even).

Definition accuracy := @clean_accuracy nat nat id id id.

Definition individually :=
  @run_standard_evaluation_individual nat nat shape stack true id id id clock
    (λ _, breaks_even) (λ _, breaks_even) (λ _, breaks_even)
    (λ _, breaks_even).

Definition run :=
  @run_standard_evaluation nat nat shape stack true id id id clock
    (λ _, breaks_even) (λ _, breaks_even) (λ _, breaks_even)
    (λ _, breaks_even).

Definition accuracy_pass (x_orig y_orig : list nat) (bs n : nat) :=
  for_each (seq 0 n) (@accuracy_batch nat nat shape id id id x_orig y_orig bs)
    (replicate (length x_orig) false).

End Demo.

(** * Proofs *)

(** ** Reading a successful run backwards *)

Lemma bind_Ok {A B} (m : M A) (k : A → M B) s r :
  bind m k s = Ok r → ∃ a s1, m s = Ok (a, s1) ∧ k a s1 = Ok r.
Proof. unfold bind. destruct (m s) as [[a s1]|e]; [eauto | discriminate]. Qed.

Lemma bind_step {A B} (m : M A) (k : A → M B) s a s1 :
  m s = Ok (a, s1) → bind m k s = k a s1.
Proof. unfold bind. by intros ->. Qed.

Lemma bind_raise {A B} (m : M A) (k : A → M B) s e :
  m s = Raise e → bind m k s = Raise e.
Proof. unfold bind. by intros ->. Qed.

Lemma bind_assoc {A B C} (m : M A) (k : A → M B) (k' : B → M C) s :
  bind (bind m k) k' s = bind m (λ a, bind (k a) k') s.
Proof. unfold bind. by destruct (m s) as [[a s1]|e]. Qed.

Lemma lift_Ok {A} (r : result A) s a s' :
  lift r s = Ok (a, s') → r = Ok a ∧ s' = s.
Proof. unfold lift. destruct r; intros [=]; by subst. Qed.

Lemma ret_Ok {A} (a : A) s a' s' : ret a s = Ok (a', s') → a' = a ∧ s' = s.
Proof. by intros [= -> ->]. Qed.

Lemma get_self_Ok s a s' : get_self s = Ok (a, s') → a = self s ∧ s' = s.
Proof. by intros [= <- <-]. Qed.

Lemma when_Ok b m s u s' :
  when b m s = Ok (u, s') →
  (b = true ∧ m s = Ok (u, s')) ∨ (b = false ∧ s' = s).
Proof. destruct b; simpl; [by left | intros [= _ ->]; by right]. Qed.

Ltac inv_run :=
  repeat match goal with
    | H : bind _ _ _ = Ok _ |- _ =>
        let a := fresh "a" in
        let s := fresh "s" in
        let Ha := fresh "Hrun" in
        apply bind_Ok in H as (a & s & Ha & H)
    | H : lift _ _ = Ok _ |- _ => apply lift_Ok in H as [H ->]
    | H : ret _ _ = Ok _ |- _ => apply ret_Ok in H as [-> ->]
    | H : get_self _ = Ok _ |- _ => apply get_self_Ok in H as [-> ->]
    | H : raise _ _ = Ok _ |- _ => discriminate H
    end.

(** A property kept by the body of a loop is kept by the loop. *)
Lemma for_each_invariant {A B} (P : B → state → Prop) (xs : list A)
    (body : A → B → M B) :
  (∀ x b s b' s', body x b s = Ok (b', s') → P b s → P b' s') →
  ∀ b s b' s', for_each xs body b s = Ok (b', s') → P b s → P b' s'.
Proof.
  intros Hbody. induction xs as [|x xs IH]; simpl; intros b s b' s' Hrun HP.
  - apply ret_Ok in Hrun as [-> ->]. done.
  - apply bind_Ok in Hrun as (b1 & s1 & H1 & Hrun). eauto.
Qed.

(** ** Facts about the tensor operations *)

Lemma foldl_fill_length {A} (v : A) (idcs : list nat) (t : list A) :
  length (foldl (λ acc i, <[i:=v]> acc) t idcs) = length t.
Proof.
  revert t. induction idcs as [|i idcs IH]; simpl; intros t; [done|].
  by rewrite IH, length_insert.
Qed.

Lemma foldl_fill_lookup_ne {A} (v : A) (idcs : list nat) (t : list A) j :
  j ∉ idcs → foldl (λ acc i, <[i:=v]> acc) t idcs !! j = t !! j.
Proof.
  revert t. induction idcs as [|i idcs IH]; simpl; intros t Hj; [done|].
  apply not_elem_of_cons in Hj as [Hne Hj].
  rewrite IH by done. by apply list_lookup_insert_ne.
Qed.

Lemma foldl_fill_lookup_eq {A} (v : A) (idcs : list nat) (t : list A) j :
  j ∈ idcs → j < length t →
  foldl (λ acc i, <[i:=v]> acc) t idcs !! j = Some v.
Proof.
  revert t. induction idcs as [|i idcs IH]; simpl; intros t Hj Hlt.
  - by apply elem_of_nil in Hj.
  - destruct (decide (j ∈ idcs)) as [Hin|Hnin].
    + apply IH; [done | by rewrite length_insert].
    + apply elem_of_cons in Hj as [->|?]; [|done].
      rewrite foldl_fill_lookup_ne by done.
      by apply list_lookup_insert_eq.
Qed.

Lemma foldl_put_lookup_ne {A} (ivs : list (nat * A)) (t : list A) j :
  j ∉ ivs.*1 →
  foldl (λ acc iv, <[iv.1:=iv.2]> acc) t ivs !! j = t !! j.
Proof.
  revert t. induction ivs as [|[i v] ivs IH]; simpl; intros t Hj; [done|].
  apply not_elem_of_cons in Hj as [Hne Hj].
  rewrite IH by done. by apply list_lookup_insert_ne.
Qed.

Lemma foldl_put_length {A} (ivs : list (nat * A)) (t : list A) :
  length (foldl (λ acc iv, <[iv.1:=iv.2]> acc) t ivs) = length t.
Proof.
  revert t. induction ivs as [|[i v] ivs IH]; simpl; intros t; [done|].
  by rewrite IH, length_insert.
Qed.

Lemma index_fill_Ok {A} (t : list A) idcs v t' :
  index_fill t idcs v = Ok t' →
  length t' = length t ∧
  (∀ j, j ∈ idcs → t' !! j = Some v) ∧
  (∀ j, j ∉ idcs → t' !! j = t !! j).
Proof.
  unfold index_fill. case_bool_decide as Hall; [|discriminate].
  intros [= <-]. split_and!.
  - apply foldl_fill_length.
  - intros j Hj. apply foldl_fill_lookup_eq; [done|].
    by eapply Forall_forall in Hall.
  - intros j Hj. by apply foldl_fill_lookup_ne.
Qed.

Lemma index_put_Ok {A} (t : list A) idcs vals t' :
  index_put t idcs vals = Ok t' →
  length t' = length t ∧ (∀ j, j ∉ idcs → t' !! j = t !! j).
Proof.
  unfold index_put. case_bool_decide as Hall; [|discriminate].
  destruct (length idcs =? length vals) eqn:Hlen; [|discriminate].
  intros [= <-]. split; [apply foldl_put_length|].
  intros j Hj. apply foldl_put_lookup_ne.
  intros Hin. apply Hj. apply list_elem_of_fmap in Hin as ([i v] & -> & Hiv).
  by apply elem_of_zip_l in Hiv.
Qed.

Lemma masked_Ok_subset {A} (t : list A) mask t' :
  masked t mask = Ok t' → ∀ x, x ∈ t' → x ∈ t.
Proof.
  unfold masked. destruct (length mask =? length t); [|discriminate].
  intros [= <-] x Hx.
  apply list_elem_of_fmap in Hx as ([y b] & -> & Hyb).
  apply list_elem_of_filter in Hyb as [_ Hyb].
  by apply elem_of_zip_l in Hyb.
Qed.

(** ** The evaluation loop *)

Section Correctness.

Context {Sample Logits : Type}.
Variable sample_shape : list nat.
Variable stack : list Sample → Sample.
Variable flat_view : bool.
Variable model : Sample → Logits.
Variable model_predict : Sample → Logits.
Variable argmax : Logits → nat.
Variable wall_clock : nat → Z.
Variable apgd_perturb :
  APGDAttack.t → list nat → list Sample → list nat → result (list Sample).
Variable fab_perturb :
  FABAttack.t → list nat → list Sample → list nat → result (list Sample).
Variable square_perturb :
  SquareAttack.t → list nat → list Sample → list nat → result (list Sample).
Variable apgd_targeted_perturb :
  APGDAttack_targeted.t → list nat → list Sample → list nat
  → result (list Sample).

Local Abbreviation run_attack' :=
  (run_attack wall_clock apgd_perturb fab_perturb square_perturb
     apgd_targeted_perturb).
Local Abbreviation attack_batch' :=
  (attack_batch sample_shape stack model model_predict argmax wall_clock
     apgd_perturb fab_perturb square_perturb apgd_targeted_perturb).
Local Abbreviation run_stage' :=
  (run_stage sample_shape stack model model_predict argmax wall_clock
     apgd_perturb fab_perturb square_perturb apgd_targeted_perturb).
Local Abbreviation stage_loop' :=
  (stage_loop sample_shape stack model model_predict argmax wall_clock
     apgd_perturb fab_perturb square_perturb apgd_targeted_perturb).
Local Abbreviation accuracy_batch' :=
  (accuracy_batch sample_shape model model_predict argmax).
Local Abbreviation evaluation_entry' :=
  (evaluation_entry sample_shape model model_predict argmax wall_clock).
Local Abbreviation evaluation_stages' :=
  (evaluation_stages sample_shape stack model model_predict argmax
     wall_clock apgd_perturb fab_perturb square_perturb
     apgd_targeted_perturb).
Local Abbreviation final_check' := (final_check sample_shape flat_view).
Local Abbreviation run_locals' :=
  (run_standard_evaluation_locals sample_shape stack flat_view model
     model_predict argmax wall_clock apgd_perturb fab_perturb square_perturb
     apgd_targeted_perturb).
Local Abbreviation run_standard_evaluation' :=
  (run_standard_evaluation sample_shape stack flat_view model model_predict
     argmax wall_clock apgd_perturb fab_perturb square_perturb
     apgd_targeted_perturb).
Local Abbreviation clean_accuracy' :=
  (clean_accuracy model model_predict argmax).
Local Abbreviation individual_step' :=
  (individual_step sample_shape stack flat_view model model_predict argmax
     wall_clock apgd_perturb fab_perturb square_perturb
     apgd_targeted_perturb).
Local Abbreviation run_individual' :=
  (run_standard_evaluation_individual sample_shape stack flat_view model
     model_predict argmax wall_clock apgd_perturb fab_perturb square_perturb
     apgd_targeted_perturb).

(** What one batch of one attack does to the local variables. *)
Lemma shrinks_refl (l : @locals Sample) : shrinks l l.
Proof. by split_and!. Qed.

Lemma shrinks_trans (l1 l2 l3 : @locals Sample) :
  shrinks l1 l2 → shrinks l2 l3 → shrinks l1 l3.
Proof.
  intros (Hf1 & Ha1 & H1) (Hf2 & Ha2 & H2). split_and!; [congruence..|].
  intros i Hi. destruct (H2 i Hi) as [Hi2 Hx2].
  destruct (H1 i Hi2) as [Hi1 Hx1]. split; [done | congruence].
Qed.

Lemma attack_batch_shrinks x_orig y_orig bs num_robust n_batches attack idcs
    batch_idx (l l' : locals) s s' :
  attack_batch' x_orig y_orig bs num_robust n_batches attack idcs batch_idx
    l s = Ok (l', s') →
  shrinks l l'.
Proof.
  unfold attack_batch. intros Hrun. inv_run.
  repeat match goal with
    | H : index_fill _ _ _ = Ok _ |- _ =>
        apply index_fill_Ok in H as (Hlen & Hin & Hout)
    | H : index_put _ _ _ = Ok _ |- _ =>
        apply index_put_Ok in H as (Hlen' & Hout')
    end.
  unfold shrinks. simpl. split_and!; [done..|].
  intros i Hi.
  match type of Hin with
  | ∀ j, j ∈ ?nr → _ => destruct (decide (i ∈ nr)) as [Hmem|Hmem]
  end.
  - rewrite (Hin i Hmem) in Hi. discriminate.
  - rewrite (Hout i Hmem) in Hi. split; [done|]. by apply Hout'.
Qed.

Lemma run_stage_shrinks x_orig y_orig bs startt attack (l l' : locals) s s' :
  run_stage' x_orig y_orig bs startt attack l s = Ok (l', s') →
  shrinks l l'.
Proof.
  unfold run_stage. intros Hrun. inv_run.
  match goal with
  | H : for_each _ _ _ _ = Ok (?b, _) |- _ =>
      apply (for_each_invariant (λ b _, shrinks l b)) in H;
        [|intros ????? Hb Hs; eapply shrinks_trans;
            [exact Hs | eapply attack_batch_shrinks, Hb]
         |apply shrinks_refl];
      destruct H as (Hf & Ha & Hi)
  end.
  by split_and!.
Qed.

Lemma stage_loop_shrinks x_orig y_orig bs startt attacks :
  ∀ (l l' : locals) s s',
    stage_loop' x_orig y_orig bs startt attacks l s = Ok (l', s') →
    shrinks l l'.
Proof.
  induction attacks as [|attack rest IH]; simpl; intros l l' s s' Hrun.
  - apply ret_Ok in Hrun as [-> ->]. apply shrinks_refl.
  - destruct (num_true (robust_flags l) =? 0).
    + apply ret_Ok in Hrun as [-> ->]. apply shrinks_refl.
    + apply bind_Ok in Hrun as (l1 & s1 & H1 & Hrun).
      eapply shrinks_trans; [eapply run_stage_shrinks, H1 | eapply IH, Hrun].
Qed.

Lemma shrinks_never_resurrected (l l' : @locals Sample) :
  shrinks l l' → never_resurrected (robust_flags l) (robust_flags l').
Proof.
  intros (Hlen & _ & Hi) i Hfalse.
  destruct (robust_flags l' !! i) as [[]|] eqn:Hl'.
  - destruct (Hi i Hl') as [Htrue _]. congruence.
  - done.
  - apply lookup_ge_None in Hl'. apply lookup_lt_Some in Hfalse. lia.
Qed.

(** The loop over [attacks1 ++ attacks2] is the loop over [attacks1]
    followed by the loop over [attacks2]: once left by [break], nothing of
    [attacks2] runs either. *)
Lemma stage_loop_zero x_orig y_orig bs startt attacks (l : locals) s :
  num_true (robust_flags l) = 0 →
  stage_loop' x_orig y_orig bs startt attacks l s = Ok (l, s).
Proof. intros H0. destruct attacks; simpl; [done|]. by rewrite H0. Qed.

Lemma stage_loop_app x_orig y_orig bs startt attacks1 attacks2 :
  ∀ (l : locals) s,
    stage_loop' x_orig y_orig bs startt (attacks1 ++ attacks2) l s =
    bind (stage_loop' x_orig y_orig bs startt attacks1 l)
         (stage_loop' x_orig y_orig bs startt attacks2) s.
Proof.
  induction attacks1 as [|attack rest IH]; intros l s; [done|].
  simpl. destruct (num_true (robust_flags l) =? 0) eqn:H0.
  - apply Nat.eqb_eq in H0. unfold bind, ret.
    symmetry. by apply stage_loop_zero.
  - rewrite bind_assoc. unfold bind at 1 2.
    destruct (run_stage' x_orig y_orig bs startt attack l s) as [[l1 s1]|e];
      [|done].
    apply IH.
Qed.

(** ** Dispatch of a name that is not an attack *)

Lemma lift_run {A} (r : result A) a s : r = Ok a → lift r s = Ok (a, s).
Proof. by intros ->. Qed.

Lemma nonzero_from_bound flags : ∀ k i,
  i ∈ nonzero_from k flags → i < k + length flags.
Proof.
  induction flags as [|b flags IH]; simpl; intros k i Hi.
  - by apply elem_of_nil in Hi.
  - destruct b.
    + apply elem_of_cons in Hi as [->|Hi]; [lia|]. apply IH in Hi. lia.
    + apply IH in Hi. lia.
Qed.

Lemma nonzero_from_length flags : ∀ k,
  length (nonzero_from k flags) = num_true flags.
Proof.
  unfold num_true. induction flags as [|b flags IH]; intros k; [done|].
  destruct b.
  - rewrite filter_cons_True by done. simpl. by rewrite IH.
  - rewrite filter_cons_False by done. simpl. apply IH.
Qed.

Lemma idx_slice_Ok t start stop :
  ishape t ≠ [] →
  ∃ t', idx_slice t start stop = Ok t' ∧ ∀ i, i ∈ ivals t' → i ∈ ivals t.
Proof.
  unfold idx_slice. destruct (ishape t) as [|d0 rest]; [done|]. intros _.
  eexists. split; [done|]. simpl. intros i Hi.
  eapply subseteq_drop, subseteq_take, Hi.
Qed.

Lemma gather_in_range {A} (t : list A) idcs :
  (∀ i, i ∈ idcs → i < length t) → ∃ rows, gather t idcs = Ok rows.
Proof.
  intros Hall. unfold gather.
  destruct (mapM (λ i, t !! i) idcs) as [rows|] eqn:Hm; [eauto|].
  exfalso. apply eq_None_not_Some in Hm. apply Hm.
  apply mapM_is_Some. apply Forall_forall. intros i Hi.
  apply lookup_lt_is_Some. by apply Hall.
Qed.

Lemma run_attack_unknown attack xshape (x : list Sample) y s :
  attack ∉ known_attacks →
  run_attack' attack xshape x y s = Raise (ValueError "Attack not supported").
Proof.
  intros Hunknown. unfold run_attack.
  repeat match goal with
    | |- context [String.eqb attack ?name] =>
        destruct (String.eqb_spec attack name) as [->|_];
          [exfalso; apply Hunknown; unfold known_attacks; repeat constructor|]
    end.
  done.
Qed.

Lemma robust_lin_idcs_shape flags :
  ishape (if 1 <? num_true flags then squeeze_ (nonzero flags)
          else nonzero flags) ≠ [].
Proof.
  destruct (1 <? num_true flags) eqn:Hn; [|done].
  apply Nat.ltb_lt in Hn. unfold squeeze_, nonzero. simpl.
  rewrite nonzero_from_length, filter_cons_True by lia. done.
Qed.

Lemma robust_lin_idcs_vals flags :
  ivals (if 1 <? num_true flags then squeeze_ (nonzero flags)
         else nonzero flags) = nonzero_from 0 flags.
Proof. by destruct (1 <? num_true flags). Qed.

Lemma ceil_div_pos n bs :
  0 < bs → n ≠ 0 → ∃ k, ceil_div n bs = Ok (S k).
Proof.
  intros Hbs Hn. unfold ceil_div.
  destruct (Nat.eqb_spec bs 0) as [?|_]; [lia|].
  destruct ((n + bs - 1) / bs) as [|k] eqn:Hd; [|eauto].
  apply Nat.div_small_iff in Hd; lia.
Qed.

Lemma run_stage_unknown x_orig y_orig bs startt attack (l : locals) s :
  attack ∉ known_attacks →
  0 < bs → sample_shape ≠ [] →
  num_true (robust_flags l) ≠ 0 →
  length (robust_flags l) ≤ length x_orig →
  length (robust_flags l) ≤ length y_orig →
  run_stage' x_orig y_orig bs startt attack l s
  = Raise (ValueError "Attack not supported").
Proof.
  intros Hunknown Hbs Hshape Hn Hx Hy. unfold run_stage.
  destruct (ceil_div_pos (num_true (robust_flags l)) bs Hbs Hn) as [k Hk].
  rewrite (bind_step _ _ _ _ _ (lift_run _ _ s Hk)).
  apply bind_raise. simpl. apply bind_raise. unfold attack_batch.
  destruct (idx_slice_Ok _ (0 * bs)
              (((0 + 1) * bs) `min` num_true (robust_flags l))
              (robust_lin_idcs_shape (robust_flags l)))
    as (idcs & Hslice & Hsub).
  rewrite robust_lin_idcs_vals in Hsub.
  rewrite (bind_step _ _ _ _ _ (lift_run _ _ s Hslice)).
  assert (second_axis sample_shape = Ok ()) as Haxis
    by (unfold second_axis; by destruct sample_shape).
  rewrite (bind_step _ _ _ _ _ (lift_run _ _ s Haxis)).
  destruct (gather_in_range x_orig (ivals idcs)) as [x Hgx].
  { intros i Hi. apply Hsub, nonzero_from_bound in Hi. lia. }
  destruct (gather_in_range y_orig (ivals idcs)) as [y Hgy].
  { intros i Hi. apply Hsub, nonzero_from_bound in Hi. lia. }
  rewrite (bind_step _ _ _ _ _ (lift_run _ _ s Hgx)).
  rewrite (bind_step _ _ _ _ _ (lift_run _ _ s Hgy)).
  apply bind_raise. by apply run_attack_unknown.
Qed.

(** ** The claims about the loop over the attacks *)

(** C2. At the [return] of [run_standard_evaluation], at every index whose
    robust flag is true the adversarial example is the original input.
    The local [x_adv] starts as [x_orig]; each batch of each attack keeps
    the property (lemmas [attack_batch_shrinks], [run_stage_shrinks] and
    [stage_loop_shrinks]: an entry of [x_adv] is rewritten only where the
    flag is cleared by the same batch). *)
Theorem robust_samples_keep_original_input x_orig y_orig bs (l : locals)
    s s' :
  run_locals' x_orig y_orig bs s = Ok (l, s') →
  ∀ i, robust_flags l !! i = Some true → x_adv l !! i = x_orig !! i.
Proof.
  unfold run_standard_evaluation_locals, evaluation_stages,
    evaluation_entry.
  intros Hrun. inv_run.
  match goal with
  | H : stage_loop' _ _ _ _ _ _ _ = Ok _ |- _ =>
      apply stage_loop_shrinks in H as (_ & _ & Hkeep)
  end.
  intros i Hi. destruct (Hkeep i Hi) as [_ Hx]. exact Hx.
Qed.

(** C3. Robust flags never come back: when the loop over the attacks
    [attacks1] ends with the flag of sample [i] false, the loop over
    [attacks1 ++ attacks2], which is the same run continued by later
    stages, ends with that flag false as well. *)
Theorem robust_flags_never_come_back x_orig y_orig bs startt attacks1
    attacks2 (l0 l1 l2 : locals) s s1 s2 :
  stage_loop' x_orig y_orig bs startt attacks1 l0 s = Ok (l1, s1) →
  stage_loop' x_orig y_orig bs startt (attacks1 ++ attacks2) l0 s
  = Ok (l2, s2) →
  ∀ i, robust_flags l1 !! i = Some false → robust_flags l2 !! i = Some false.
Proof.
  intros H1 H12. rewrite stage_loop_app in H12.
  rewrite (bind_step _ _ _ _ _ H1) in H12.
  apply stage_loop_shrinks, shrinks_never_resurrected in H12. exact H12.
Qed.

(** C4. Once no sample is robust, nothing of a later stage happens: when
    the loop over [attacks1] ends with no flag true, the loop over
    [attacks1 ++ attacks2] ends in the very same state, whose event list
    holds every call of [perturb]; no call is added, whatever [attacks2]
    is. *)
Theorem no_stage_after_all_broken x_orig y_orig bs startt attacks1 attacks2
    (l0 l1 : locals) s s1 :
  stage_loop' x_orig y_orig bs startt attacks1 l0 s = Ok (l1, s1) →
  num_true (robust_flags l1) = 0 →
  stage_loop' x_orig y_orig bs startt (attacks1 ++ attacks2) l0 s
  = Ok (l1, s1).
Proof.
  intros H1 H0. rewrite stage_loop_app.
  rewrite (bind_step _ _ _ _ _ H1). by apply stage_loop_zero.
Qed.

(** ** The shape of the batch given to an attack *)

Lemma modify_self_Ok f s u s' :
  modify_self f s = Ok (u, s') →
  s' = mkState (f (self s)) (heap s) (ticks s) (out s).
Proof. by intros [= _ <-]. Qed.

Lemma emit_Ok e s u s' :
  emit e s = Ok (u, s') →
  s' = mkState (self s) (heap s) (ticks s) (out s ++ [e]).
Proof. by intros [= _ <-]. Qed.

Lemma time_Ok s t s' :
  time wall_clock s = Ok (t, s') →
  t = wall_clock (ticks s) ∧
  s' = mkState (self s) (heap s) (S (ticks s)) (out s).
Proof. by intros [= <- <-]. Qed.

Lemma get_seed_Ok s sd s' :
  get_seed wall_clock s = Ok (sd, s') →
  self s' = self s ∧ heap s' = heap s ∧ out s' = out s.
Proof.
  unfold get_seed. intros Hrun. inv_run. destruct (seed (self s)).
  - by apply ret_Ok in Hrun as [_ ->].
  - by apply time_Ok in Hrun as [_ ->].
Qed.

Lemma get_logits_Ok (x : list Sample) s o s' :
  get_logits model model_predict x s = Ok (o, s') → s' = s.
Proof.
  unfold get_logits. intros Hrun. inv_run.
  destruct (negb (is_tf_model (self s))); by apply ret_Ok in Hrun as [_ ->].
Qed.

Ltac inv_state :=
  repeat match goal with
    | H : modify_self _ _ = Ok (_, ?s') |- _ =>
        apply modify_self_Ok in H; subst s'
    | H : emit _ _ = Ok (_, ?s') |- _ => apply emit_Ok in H; subst s'
    | H : print _ _ = Ok (_, ?s') |- _ => apply emit_Ok in H; subst s'
    | H : get_logits _ _ _ _ = Ok (_, ?s') |- _ =>
        apply get_logits_Ok in H; subst s'
    | H : time _ _ = Ok (_, ?s') |- _ =>
        apply time_Ok in H as [-> ?]; subst s'
    end.

Lemma perturb_shapes_snoc_print o m :
  perturb_shapes (o ++ [Print m]) = perturb_shapes o.
Proof. unfold perturb_shapes. rewrite omap_app. simpl. apply app_nil_r. Qed.

Lemma perturb_shapes_snoc_call o attack sh :
  perturb_shapes (o ++ [Perturb attack sh]) = perturb_shapes o ++ [sh].
Proof. unfold perturb_shapes. by rewrite omap_app. Qed.

Lemma run_attack_out attack sh (x : list Sample) y s r s' :
  run_attack' attack sh x y s = Ok (r, s') →
  perturb_shapes (out s') = perturb_shapes (out s) ++ [sh].
Proof.
  unfold run_attack. intros Hrun.
  repeat match type of Hrun with
    | context [String.eqb attack ?name] => destruct (String.eqb attack name)
    end;
    inv_run; inv_state;
    match goal with
    | H : get_seed _ _ = Ok (_, ?s1) |- _ =>
        apply get_seed_Ok in H as (_ & _ & Hout); simpl in *
    end;
    rewrite perturb_shapes_snoc_call; by rewrite Hout.
Qed.

Lemma attack_batch_out x_orig y_orig bs num_robust n_batches attack idcs
    batch_idx (l l' : locals) s s' :
  attack_batch' x_orig y_orig bs num_robust n_batches attack idcs batch_idx
    l s = Ok (l', s') →
  ∃ cut,
    idx_slice idcs (batch_idx * bs)
      (((batch_idx + 1) * bs) `min` num_robust) = Ok cut ∧
    perturb_shapes (out s')
    = perturb_shapes (out s) ++ [batch_shape sample_shape cut].
Proof.
  unfold attack_batch. intros Hrun. inv_run. inv_state.
  eexists. split; [done|].
  match goal with
  | H : run_attack' _ _ _ _ _ = Ok _ |- _ =>
      apply run_attack_out in H as Hshapes
  end.
  match goal with
  | H : when _ _ _ = Ok _ |- _ =>
      apply when_Ok in H as [[_ H]|[_ ->]]; [inv_state; simpl|]
  end.
  - by rewrite perturb_shapes_snoc_print.
  - done.
Qed.

(** C6. With exactly one robust sample left, the batch handed to [perturb]
    does not have batch rank: a stage that returns has made one call of
    [perturb], and the shape of its [x] is the sample shape behind two
    leading axes of size one (three, when the sample itself has one axis
    and the correction for tensors of three axes fires), never behind
    one. *)
Theorem single_robust_sample_loses_batch_rank x_orig y_orig bs startt
    attack (l l' : locals) s s' :
  0 < bs →
  num_true (robust_flags l) = 1 →
  run_stage' x_orig y_orig bs startt attack l s = Ok (l', s') →
  ∃ shape,
    perturb_shapes (out s') = perturb_shapes (out s) ++ [shape] ∧
    shape ≠ 1 :: sample_shape ∧
    (shape = 1 :: 1 :: sample_shape ∨ shape = 1 :: 1 :: 1 :: sample_shape).
Proof.
  intros Hbs H1 Hrun. unfold run_stage in Hrun. rewrite H1 in Hrun.
  assert (ceil_div 1 bs = Ok 1) as Hceil.
  { unfold ceil_div. destruct (Nat.eqb_spec bs 0); [lia|].
    replace (1 + bs - 1) with bs by lia. by rewrite Nat.div_same by lia. }
  rewrite Hceil in Hrun. inv_run.
  match goal with H : Ok 1 = Ok _ |- _ => injection H as <- end.
  match goal with H : for_each _ _ _ _ = Ok _ |- _ => simpl in H end.
  inv_run.
  match goal with
  | H : attack_batch' _ _ _ _ _ _ _ _ _ _ = Ok _ |- _ =>
      apply attack_batch_out in H as (cut & Hcut & Hshapes)
  end.
  assert (ishape cut = [1; 1]) as Hcutshape.
  { unfold idx_slice, nonzero in Hcut. simpl in Hcut.
    rewrite nonzero_from_length, H1 in Hcut. injection Hcut as <-. simpl.
    by replace ((bs + 0) `min` 1) with 1 by lia. }
  exists (batch_shape sample_shape cut). split_and!.
  - match goal with
    | H : when _ _ _ = Ok _ |- _ =>
        apply when_Ok in H as [[_ H]|[_ ->]]; [inv_run; inv_state; simpl|]
    end.
    + by rewrite perturb_shapes_snoc_print.
    + done.
  - unfold batch_shape. rewrite Hcutshape.
    destruct (length ([1; 1] ++ sample_shape) =? 3);
      intros Heq; apply (f_equal length) in Heq; simpl in Heq; lia.
  - unfold batch_shape. rewrite Hcutshape.
    destruct (length ([1; 1] ++ sample_shape) =? 3); [by right | by left].
Qed.

(** ** Verbosity: two runs that differ in [verbose] only *)




Lemma related_mono {A} (R R' : A → A → Prop) r1 r2 :
  (∀ a1 a2, R a1 a2 → R' a1 a2) → related R r1 r2 → related R' r1 r2.
Proof.
  intros HR. destruct r1 as [[a1 s1]|e1], r2 as [[a2 s2]|e2]; simpl; try done.
  intros [? ?]. split; [by apply HR | done].
Qed.









Lemma silent_emit e : silent (emit e).
Proof. intros s. by eexists. Qed.



Lemma silent_timed_print (f : Z → message) :
  silent (bind (time wall_clock) (λ t, print (f t))).
Proof. intros s. by eexists. Qed.




















(** ** What a run leaves in the object and in the store *)

Lemma keeps_config_refl s : keeps_config s s.
Proof. by split_and!. Qed.

Lemma keeps_config_trans s1 s2 s3 :
  keeps_config s1 s2 → keeps_config s2 s3 → keeps_config s1 s3.
Proof. intros (?&?&?&?&?) (?&?&?&?&?). split_and!; congruence. Qed.

Lemma when_silent_keeps b m s u s' :
  silent m → when b m s = Ok (u, s') → keeps_config s s'.
Proof.
  intros Hm Hrun. apply when_Ok in Hrun as [[_ Hrun]|[_ ->]].
  - destruct (Hm s) as (s1 & Hs1 & Hself & Hheap).
    rewrite Hs1 in Hrun. injection Hrun as _ <-.
    split_and!; congruence.
  - apply keeps_config_refl.
Qed.

Lemma run_attack_keeps attack sh (x : list Sample) y s r s' :
  run_attack' attack sh x y s = Ok (r, s') → keeps_config s s'.
Proof.
  unfold run_attack. intros Hrun.
  repeat match type of Hrun with
    | context [String.eqb attack ?name] => destruct (String.eqb attack name)
    end;
    inv_run; inv_state;
    match goal with
    | H : get_seed _ _ = Ok (_, ?s1) |- _ =>
        apply get_seed_Ok in H as (Hself & Hheap & _); simpl in *
    end;
    unfold keeps_config; simpl; rewrite Hself, Hheap; done.
Qed.

Lemma attack_batch_keeps x_orig y_orig bs num_robust n_batches attack idcs
    batch_idx (l l' : locals) s s' :
  attack_batch' x_orig y_orig bs num_robust n_batches attack idcs batch_idx
    l s = Ok (l', s') →
  keeps_config s s'.
Proof.
  unfold attack_batch. intros Hrun. inv_run. inv_state.
  match goal with
  | H : run_attack' _ _ _ _ _ = Ok _ |- _ => apply run_attack_keeps in H
  end.
  match goal with
  | H : when _ _ _ = Ok _ |- _ =>
      apply when_silent_keeps in H; [|apply silent_emit]
  end.
  by eapply keeps_config_trans.
Qed.

Lemma run_stage_keeps x_orig y_orig bs startt attack (l l' : locals) s s' :
  run_stage' x_orig y_orig bs startt attack l s = Ok (l', s') →
  keeps_config s s'.
Proof.
  unfold run_stage. intros Hrun. inv_run.
  match goal with
  | H : for_each _ _ _ _ = Ok _ |- _ =>
      apply (for_each_invariant (λ _ s1, keeps_config s s1)) in H;
        [|intros ????? Hb Hs; eapply keeps_config_trans;
            [exact Hs | eapply attack_batch_keeps, Hb]
         |apply keeps_config_refl]
  end.
  match goal with
  | H : when _ _ _ = Ok _ |- _ =>
      apply when_silent_keeps in H;
        [|apply (silent_timed_print (λ t, MsgStage _ _ (t - _)%Z))]
  end.
  by eapply keeps_config_trans.
Qed.

Lemma stage_loop_keeps x_orig y_orig bs startt attacks :
  ∀ (l l' : locals) s s',
    stage_loop' x_orig y_orig bs startt attacks l s = Ok (l', s') →
    keeps_config s s'.
Proof.
  induction attacks as [|attack rest IH]; simpl; intros l l' s s' Hrun.
  - apply ret_Ok in Hrun as [-> ->]. apply keeps_config_refl.
  - destruct (num_true (robust_flags l) =? 0).
    + apply ret_Ok in Hrun as [-> ->]. apply keeps_config_refl.
    + apply bind_Ok in Hrun as (l1 & s1 & H1 & Hrun).
      eapply keeps_config_trans; [eapply run_stage_keeps, H1 | eapply IH, Hrun].
Qed.

Lemma final_check_keeps (l : @locals Sample) s u s' :
  final_check' l s = Ok (u, s') → keeps_config s s'.
Proof.
  unfold final_check. intros Hrun. inv_run.
  apply when_Ok in Hrun as [[_ Hrun]|[_ ->]]; [|apply keeps_config_refl].
  inv_run. inv_state.
  match goal with
  | H : (if _ then _ else _) _ = Ok (_, ?s1) |- _ =>
      assert (s1 = s) as ->
        by (repeat match type of H with
              | context [String.eqb ?a ?b] => destruct (String.eqb a b)
              end; first [by apply lift_Ok in H as [_ ->] | done])
  end.
  by split_and!.
Qed.

Lemma accuracy_pass_keeps x_orig y_orig bs xs flags flags' s s' :
  for_each xs (accuracy_batch' x_orig y_orig bs) flags s = Ok (flags', s') →
  s' = s.
Proof.
  intros Hrun.
  apply (for_each_invariant (λ _ s1, s1 = s)) in Hrun; [done| |done].
  intros x b s1 b' s1' Hb ->. unfold accuracy_batch in Hb.
  inv_run. by inv_state.
Qed.

Lemma remove_first_None x v : x ∉ v → remove_first x v = None.
Proof.
  induction v as [|y v IH]; [done|]. intros Hx.
  apply not_elem_of_cons in Hx as [Hne Hx]. simpl.
  destruct (String.eqb_spec x y); [done|]. by rewrite IH.
Qed.

Lemma remove_first_Some x v : x ∈ v → is_Some (remove_first x v).
Proof.
  induction v as [|y v IH]; intros Hx; [by apply elem_of_nil in Hx|].
  simpl. destruct (String.eqb_spec x y); [done|].
  apply elem_of_cons in Hx as [?|Hx]; [done|].
  destruct (IH Hx) as [r ->]. done.
Qed.

Lemma deref_Ok l s v s' :
  deref (Some l) s = Ok (v, s') → heap s !! l = Some v ∧ s' = s.
Proof.
  unfold deref. destruct (heap s !! l); [|done]. by intros [= -> ->].
Qed.

Lemma deref_state o s v s' : deref o s = Ok (v, s') → s' = s.
Proof.
  unfold deref. destruct o as [l|]; [|done].
  destruct (heap s !! l); [|done]. by intros [= _ ->].
Qed.

Lemma contains_Ok x l s b s' :
  contains x (Some l) s = Ok (b, s') →
  ∃ v, heap s !! l = Some v ∧ b = bool_decide (x ∈ v) ∧ s' = s.
Proof.
  unfold contains. intros Hrun.
  apply bind_Ok in Hrun as (v & s1 & Hd & Hrun).
  apply deref_Ok in Hd as [Hv ->]. apply ret_Ok in Hrun as [-> ->]. eauto.
Qed.

Lemma store_Ok l v s u s' :
  store l v s = Ok (u, s') →
  s' = mkState (self s) (<[l:=v]> (heap s)) (ticks s) (out s).
Proof. by intros [= _ <-]. Qed.

(** [if x in self.attacks_to_run: self.attacks_to_run.remove(x)]. *)
Lemma remove_if_present x l v s u s' :
  heap s !! l = Some v →
  (let* b := contains x (Some l) in when b (list_remove (Some l) x)) s
  = Ok (u, s') →
  self s' = self s ∧ heap s' !! l = Some (default v (remove_first x v)).
Proof.
  intros Hv Hrun. apply bind_Ok in Hrun as (b & s1 & Hc & Hrun).
  apply contains_Ok in Hc as (v0 & Hv0 & -> & ->).
  assert (v0 = v) as -> by congruence.
  case_bool_decide as Hx; simpl in Hrun.
  - unfold list_remove in Hrun. apply bind_Ok in Hrun as (w & s1 & Hd & Hrun).
    apply deref_Ok in Hd as [Hw ->]. assert (w = v) as -> by congruence.
    destruct (remove_first_Some x v Hx) as [v' Hv']. rewrite Hv' in *.
    apply store_Ok in Hrun as ->. simpl. by rewrite lookup_insert_eq.
  - apply ret_Ok in Hrun as [_ ->]. by rewrite remove_first_None.
Qed.

(** [if not x in self.attacks_to_run: self.attacks_to_run.extend([x])]. *)
Lemma extend_if_absent x l v s u s' :
  heap s !! l = Some v →
  (let* b := contains x (Some l) in
   when (negb b) (list_extend (Some l) [x])) s = Ok (u, s') →
  self s' = self s ∧
  heap s' !! l = Some (if bool_decide (x ∈ v) then v else v ++ [x]).
Proof.
  intros Hv Hrun. apply bind_Ok in Hrun as (b & s1 & Hc & Hrun).
  apply contains_Ok in Hc as (v0 & Hv0 & -> & ->).
  assert (v0 = v) as -> by congruence.
  case_bool_decide as Hx; simpl in Hrun.
  - by apply ret_Ok in Hrun as [_ ->].
  - unfold list_extend in Hrun. apply bind_Ok in Hrun as (w & s1 & Hd & Hrun).
    apply deref_Ok in Hd as [Hw ->]. assert (w = v) as -> by congruence.
    apply store_Ok in Hrun as ->. simpl. by rewrite lookup_insert_eq.
Qed.

Lemma update_attacks_list_pruned l v s u s' :
  plus (self s) = false →
  attacks_to_run (self s) = Some l →
  heap s !! l = Some v →
  update_attacks_list s = Ok (u, s') →
  self s' = self s ∧ heap s' !! l = Some (pruned v).
Proof.
  intros Hplus Hl Hv Hrun. unfold update_attacks_list in Hrun.
  apply bind_Ok in Hrun as (a & s0 & Hget & Hrun).
  apply get_self_Ok in Hget as [-> ->]. rewrite Hplus, Hl in Hrun.
  apply bind_Ok in Hrun as (u1 & s1 & H1 & H2).
  apply (remove_if_present _ _ _ _ _ _ Hv) in H1 as [Hself1 Hv1].
  apply (remove_if_present _ _ _ _ _ _ Hv1) in H2 as [Hself2 Hv2].
  split; [congruence | done].
Qed.

Lemma extend_attacks_list_extended l v s u s' :
  attacks_to_run (self s) = Some l →
  heap s !! l = Some v →
  extend_attacks_list s = Ok (u, s') →
  self s' = self s ∧
  heap s' !! l = Some (if plus (self s) then extended v else v).
Proof.
  intros Hl Hv Hrun. unfold extend_attacks_list in Hrun.
  apply bind_Ok in Hrun as (a & s0 & Hget & Hrun).
  apply get_self_Ok in Hget as [-> ->]. rewrite Hl in Hrun.
  destruct (plus (self s)).
  - apply bind_Ok in Hrun as (u1 & s1 & H1 & H2).
    apply (extend_if_absent _ _ _ _ _ _ Hv) in H1 as [Hself1 Hv1].
    apply (extend_if_absent _ _ _ _ _ _ Hv1) in H2 as [Hself2 Hv2].
    split; [congruence | done].
  - by apply ret_Ok in Hrun as [_ ->].
Qed.

Lemma contains_None x s : contains x None s = Raise TypeError.
Proof. done. Qed.

Lemma contains_dangling x l s :
  heap s !! l = None → contains x (Some l) s = Raise NoSuchObject.
Proof. intros Hl. unfold contains, bind, deref. by rewrite Hl. Qed.

(** The update on entry returns only when [attacks_to_run] is a list, and
    then leaves it extended or pruned, by the [plus] flag. *)
Lemma update_attacks_list_Ok s u s' :
  update_attacks_list s = Ok (u, s') →
  ∃ l v, attacks_to_run (self s) = Some l ∧ heap s !! l = Some v ∧
         self s' = self s ∧
         heap s' !! l = Some (if plus (self s) then extended v else pruned v).
Proof.
  intros Hrun.
  destruct (attacks_to_run (self s)) as [l|] eqn:Hl.
  - destruct (heap s !! l) as [v|] eqn:Hv.
    + exists l, v. split_and!; [done..| |].
      * unfold update_attacks_list in Hrun.
        apply bind_Ok in Hrun as (a & s0 & Hget & Hrun).
        apply get_self_Ok in Hget as [-> ->]. rewrite Hl in Hrun.
        destruct (plus (self s));
          apply bind_Ok in Hrun as (u1 & s1 & H1 & H2).
        -- apply (extend_if_absent _ _ _ _ _ _ Hv) in H1 as [Hself1 Hv1].
           apply (extend_if_absent _ _ _ _ _ _ Hv1) in H2 as [Hself2 _].
           congruence.
        -- apply (remove_if_present _ _ _ _ _ _ Hv) in H1 as [Hself1 Hv1].
           apply (remove_if_present _ _ _ _ _ _ Hv1) in H2 as [Hself2 _].
           congruence.
      * destruct (plus (self s)) eqn:Hplus.
        -- unfold update_attacks_list in Hrun.
           apply bind_Ok in Hrun as (a & s0 & Hget & Hrun).
           apply get_self_Ok in Hget as [-> ->]. rewrite Hl, Hplus in Hrun.
           apply bind_Ok in Hrun as (u1 & s1 & H1 & H2).
           apply (extend_if_absent _ _ _ _ _ _ Hv) in H1 as [Hself1 Hv1].
           by apply (extend_if_absent _ _ _ _ _ _ Hv1) in H2 as [_ Hv2].
        -- by eapply update_attacks_list_pruned.
    + exfalso. unfold update_attacks_list in Hrun.
      apply bind_Ok in Hrun as (a & s0 & Hget & Hrun).
      apply get_self_Ok in Hget as [-> ->]. rewrite Hl in Hrun.
      destruct (plus (self s));
        apply bind_Ok in Hrun as (u1 & s1 & H1 & _);
        apply bind_Ok in H1 as (b & s2 & H1 & _);
        by rewrite contains_dangling in H1.
  - exfalso. unfold update_attacks_list in Hrun.
    apply bind_Ok in Hrun as (a & s0 & Hget & Hrun).
    apply get_self_Ok in Hget as [-> ->]. rewrite Hl in Hrun.
    destruct (plus (self s));
      apply bind_Ok in Hrun as (u1 & s1 & H1 & _);
      apply bind_Ok in H1 as (b & s2 & H1 & _);
      by rewrite contains_None in H1.
Qed.

(** The entry of a run, read backwards. *)
Lemma evaluation_entry_Ok x_orig y_orig bs s (p : Z * locals) s0 :
  evaluation_entry' x_orig y_orig bs s = Ok (p, s0) →
  ∃ s1 n,
    update_attacks_list s = Ok ((), s1) ∧
    ceil_div (length x_orig) bs = Ok n ∧
    for_each (seq 0 n) (accuracy_batch' x_orig y_orig bs)
      (replicate (length x_orig) false) s1 = Ok (robust_flags p.2, s1) ∧
    py_div (num_true (robust_flags p.2)) (length x_orig)
    = Ok (robust_accuracy p.2) ∧
    x_adv p.2 = x_orig ∧
    self s0 = self s1 ∧ heap s0 = heap s1 ∧
    out s0 = out s1 ++ (if verbose (self s1)
                        then [Print (MsgInitialAccuracy (robust_accuracy p.2))]
                        else []).
Proof.
  unfold evaluation_entry. intros Hrun.
  apply bind_Ok in Hrun as ([] & s1 & Hupd & Hrun). exists s1.
  inv_run. inv_state.
  match goal with
  | H : for_each _ (accuracy_batch' _ _ _) _ _ = Ok (_, ?s2) |- _ =>
      pose proof (accuracy_pass_keeps _ _ _ _ _ _ _ _ H); subst s2
  end.
  eexists. split_and!; [done..| | |]; simpl;
    match goal with
    | H : when _ (print _) _ = Ok (_, ?s2) |- _ =>
        apply when_Ok in H as [[Hv H]|[Hv ->]]; [inv_state|]; simpl;
          rewrite ?Hv, ?app_nil_r; done
    end.
Qed.

(** A run up to the end of its loop, read backwards. *)
Lemma evaluation_stages_Ok x_orig y_orig bs (l : locals) s s' :
  evaluation_stages' x_orig y_orig bs s = Ok (l, s') →
  ∃ (p : Z * locals) s0 attacks,
    evaluation_entry' x_orig y_orig bs s = Ok (p, s0) ∧
    deref (attacks_to_run (self s0)) s0 = Ok (attacks, s0) ∧
    stage_loop' x_orig y_orig bs p.1 attacks p.2 s0 = Ok (l, s').
Proof.
  unfold evaluation_stages. intros Hrun.
  apply bind_Ok in Hrun as (p & s0 & Hentry & Hrun). inv_run.
  match goal with
  | H : deref _ _ = Ok (_, ?s2) |- _ =>
      pose proof (deref_state _ _ _ _ H); subst s2
  end.
  by eexists _, _, _.
Qed.

Lemma run_locals_Ok x_orig y_orig bs (l : locals) s s' :
  run_locals' x_orig y_orig bs s = Ok (l, s') →
  ∃ s1, evaluation_stages' x_orig y_orig bs s = Ok (l, s1) ∧
        final_check' l s1 = Ok ((), s').
Proof.
  unfold run_standard_evaluation_locals. intros Hrun. inv_run.
  match goal with H : final_check' _ _ = Ok (?u, _) |- _ => destruct u end.
  eauto.
Qed.

(** After the update on entry, a run leaves the store and the fields
    [plus], [verbose], [attacks_to_run] and [norm] alone. *)
Lemma evaluation_stages_after_update x_orig y_orig bs (l : locals) s s' :
  evaluation_stages' x_orig y_orig bs s = Ok (l, s') →
  ∃ s1, update_attacks_list s = Ok ((), s1) ∧ keeps_config s1 s'.
Proof.
  intros Hrun.
  apply evaluation_stages_Ok in Hrun as (p & s0 & attacks & Hentry & _ & Hloop).
  apply evaluation_entry_Ok in Hentry
    as (s1 & n & Hupd & _ & _ & _ & _ & Hself & Hheap & _).
  exists s1. split; [done|].
  apply stage_loop_keeps in Hloop as (?&?&?&?&?).
  split_and!; congruence.
Qed.

Lemma run_locals_after_update x_orig y_orig bs (l : locals) s s' :
  run_locals' x_orig y_orig bs s = Ok (l, s') →
  ∃ u s1, update_attacks_list s = Ok (u, s1) ∧ keeps_config s1 s'.
Proof.
  intros Hrun. apply run_locals_Ok in Hrun as (s2 & Hstages & Hcheck).
  apply evaluation_stages_after_update in Hstages as (s1 & Hupd & Hkeep).
  exists (), s1. split; [done|].
  eapply keeps_config_trans; [exact Hkeep | eapply final_check_keeps, Hcheck].
Qed.

Lemma clean_accuracy_keeps x_orig y_orig bs s q s' :
  clean_accuracy' x_orig y_orig bs s = Ok (q, s') → keeps_config s s'.
Proof.
  unfold clean_accuracy. intros Hrun. inv_run.
  match goal with
  | H : for_each _ _ _ _ = Ok (_, ?s1) |- _ =>
      apply (for_each_invariant (λ _ s1, s1 = s)) in H; [subst s1| |done]
  end.
  - match goal with
    | H : when _ _ _ = Ok _ |- _ => apply when_Ok in H as [[_ H]|[_ ->]]
    end; [|apply keeps_config_refl].
    inv_run. inv_state. by split_and!.
  - intros x b s2 b' s2' Hb ->. unfold clean_batch in Hb.
    inv_run. by inv_state.
Qed.

Lemma alloc_Ok v s l s' :
  alloc v s = Ok (l, s') →
  s' = mkState (self s) (<[l:=v]> (heap s)) (ticks s) (out s).
Proof. by intros [= <- <-]. Qed.


(** One turn of the loop of the individual run, entered with [plus]
    cleared: [attacks_to_run] is left as the new list [[c]] after the
    update on entry of the run has pruned it. *)
Lemma individual_step_config x_orig y_orig bs verbose_indiv c adv s adv' s' :
  individual_step' x_orig y_orig bs verbose_indiv c adv s = Ok (adv', s') →
  plus (self s) = false →
  plus (self s') = false ∧ verbose (self s') = verbose (self s) ∧
  ∃ l, attacks_to_run (self s') = Some l ∧ heap s' !! l = Some (pruned [c]).
Proof.
  unfold individual_step, run_standard_evaluation. intros Hrun Hplus.
  inv_run. inv_state.
  match goal with H : alloc _ _ = Ok _ |- _ => apply alloc_Ok in H as -> end.
  match goal with
  | H : run_locals' _ _ _ _ = Ok _ |- _ =>
      apply run_locals_after_update in H as (u & s1 & Hupd & Hkeep)
  end.
  apply update_attacks_list_Ok in Hupd as (l & v & Hl & Hv & Hself & Hheap).
  simpl in Hl, Hv, Hself, Hheap. injection Hl as <-.
  rewrite lookup_insert_eq in Hv. injection Hv as <-.
  rewrite Hplus in Hheap.
  match goal with
  | H : (if verbose_indiv then _ else _) ?sa = Ok (_, ?sb) |- _ =>
      assert (keeps_config sa sb) as Hkeep';
        [destruct verbose_indiv|
         pose proof (keeps_config_trans _ _ _ Hkeep Hkeep')
           as (Hp & Hvb & Hatr & Hh & _)]
  end.
  - inv_run. inv_state.
    match goal with
    | H : clean_accuracy' _ _ _ _ = Ok _ |- _ =>
        apply clean_accuracy_keeps in H as (?&?&?&?&?)
    end.
    by split_and!.
  - match goal with
    | H : ret () _ = Ok _ |- _ => apply ret_Ok in H as [_ ->]
    end.
    apply keeps_config_refl.
  - rewrite Hp, Hvb, Hatr, Hh, Hself. simpl. split_and!; [done..|]. eauto.
Qed.


(** ** Construction with [plus] *)

(** C1, on the code. Constructing with [plus] set does not leave the
    extended list in the object: [extend] appends the two targeted attacks
    to the caller's list in place and evaluates to [None], which is what
    [attacks_to_run] becomes; the first membership test of
    [run_standard_evaluation] then raises [TypeError], for every input. *)
Theorem init_with_plus_then_run_raises norm eps seed verbose l tf device h v
    (x_orig : list Sample) y_orig bs t o :
  norm ∈ ["Linf"; "L2"] →
  h !! l = Some v →
  ∃ a h',
    __init__ norm eps seed verbose l true tf device h = Ok (a, h') ∧
    attacks_to_run a = None ∧
    h' !! l = Some (v ++ ["apgd-t"; "fab-t"]) ∧
    run_standard_evaluation' x_orig y_orig bs (mkState a h' t o)
    = Raise TypeError.
Proof.
  intros Hnorm Hv. unfold __init__, init_attacks_to_run.
  rewrite bool_decide_eq_true_2 by done. simpl. rewrite Hv.
  eexists _, _. split_and!; [done | done | by rewrite lookup_insert_eq |].
  reflexivity.
Qed.

End Correctness.

(** * The update on entry, for a list object *)

Lemma extended_has_both v : "apgd-t" ∈ extended v ∧ "fab-t" ∈ extended v.
Proof.
  unfold extended.
  set (v1 := if bool_decide ("apgd-t" ∈ v) then v else v ++ ["apgd-t"]).
  assert ("apgd-t" ∈ v1) as Ha.
  { unfold v1. case_bool_decide; [done|]. apply elem_of_app. right. by left. }
  cbv zeta. case_bool_decide as Hf; [done|].
  split; apply elem_of_app; [by left | right; by left].
Qed.

Lemma remove_first_split x v v' :
  remove_first x v = Some v' →
  ∃ v1 v2, v = v1 ++ x :: v2 ∧ v' = v1 ++ v2.
Proof.
  revert v'. induction v as [|y v IH]; simpl; intros v' Hrm; [done|].
  destruct (String.eqb_spec x y) as [->|Hne].
  - injection Hrm as <-. by exists [], v.
  - destruct (remove_first x v) as [r|]; [|done]. injection Hrm as <-.
    destruct (IH r eq_refl) as (v1 & v2 & -> & ->). by exists (y :: v1), v2.
Qed.

Lemma default_remove_first x v :
  NoDup v →
  NoDup (default v (remove_first x v)) ∧
  (x ∉ default v (remove_first x v)) ∧
  ∀ z, z ∈ default v (remove_first x v) → z ∈ v.
Proof.
  intros Hnd. destruct (remove_first x v) as [v'|] eqn:Hrm; simpl.
  - apply remove_first_split in Hrm as (v1 & v2 & -> & ->).
    apply NoDup_app in Hnd as (Hnd1 & Hdisj & Hnd2).
    apply NoDup_cons in Hnd2 as [Hx2 Hnd2]. split_and!.
    + apply NoDup_app. split_and!; [done| |done].
      intros z Hz1 Hz2. apply (Hdisj z Hz1). by right.
    + intros Hin. apply elem_of_app in Hin as [Hin|Hin]; [|done].
      apply (Hdisj x Hin). by left.
    + intros z Hz. apply elem_of_app.
      apply elem_of_app in Hz as [Hz|Hz]; [by left | right; by right].
  - split_and!; [done| |done]. intros Hx.
    apply remove_first_Some in Hx as [r Hr]. congruence.
Qed.

Lemma pruned_has_neither v :
  NoDup v → ("apgd-t" ∉ pruned v) ∧ ("fab-t" ∉ pruned v).
Proof.
  intros Hnd. unfold pruned. cbv zeta.
  destruct (default_remove_first "apgd-t" v Hnd) as (Hnd1 & Ha & _).
  destruct (default_remove_first "fab-t" _ Hnd1) as (_ & Hf & Hsub).
  split; [|done]. intros Hin. by apply Ha, Hsub.
Qed.

(** Lines 71-80 on an object whose [attacks_to_run] is a list without
    repetitions: afterwards the two targeted attacks are both in the list
    when [plus] holds and both out of it when it does not. *)
Lemma update_on_entry_reconciles s u s' l v :
  attacks_to_run (self s) = Some l →
  heap s !! l = Some v →
  NoDup v →
  update_attacks_list s = Ok (u, s') →
  ∃ v', heap s' !! l = Some v' ∧
    if plus (self s) then "apgd-t" ∈ v' ∧ "fab-t" ∈ v'
    else ("apgd-t" ∉ v') ∧ ("fab-t" ∉ v').
Proof.
  intros Hl Hv Hnd Hrun.
  apply update_attacks_list_Ok in Hrun as (l0 & v0 & Hl0 & Hv0 & _ & Hheap).
  assert (l0 = l) as -> by congruence. assert (v0 = v) as -> by congruence.
  eexists. split; [exact Hheap|]. destruct (plus (self s)).
  - apply extended_has_both.
  - by apply pruned_has_neither.
Qed.

(** * [clean_accuracy] and [cheap] *)

(** [clean_accuracy] with a batch size above the number of samples runs no
    batch at all: the accumulator is still the float [0.], and [.item()]
    raises (the division of the [print] raises first when there is no
    sample and [verbose] is set). *)
Lemma clean_accuracy_oversized_batch {Sample Logits : Type}
    (model model_predict : Sample → Logits) (argmax : Logits → nat)
    (x_orig : list Sample) y_orig bs s :
  length x_orig < bs →
  clean_accuracy model model_predict argmax x_orig y_orig bs s
  = Raise (if verbose (self s) && (length x_orig =? 0)
           then ZeroDivisionError else AttributeError).
Proof.
  intros Hbs. unfold clean_accuracy, floor_div.
  destruct (Nat.eqb_spec bs 0) as [?|_]; [lia|].
  rewrite Nat.div_small by done. unfold bind, lift, get_self. simpl.
  destruct (verbose (self s)); simpl; [|done].
  unfold bind, lift, py_div. by destruct (length x_orig =? 0).
Qed.

(** C5, on the code. [clean_accuracy] counts whole batches only, since the
    number of batches is [N // bs]: on three samples that are all
    classified correctly it returns 2/3 with batches of two, raises
    [AttributeError] with batches of five, and returns 3/3 only when the
    batch size divides the number of samples. *)
Theorem clean_accuracy_counts_whole_batches_only :
  (∃ s', Demo.accuracy [0; 1; 2] [0; 1; 2] 2 (Demo.start false false)
         = Ok ((2 # 3)%Q, s')) ∧
  Demo.accuracy [0; 1; 2] [0; 1; 2] 5 (Demo.start false false)
  = Raise AttributeError ∧
  (∃ s', Demo.accuracy [0; 1; 2] [0; 1; 2] 3 (Demo.start false false)
         = Ok ((3 # 3)%Q, s')).
Proof.
  split_and!.
  - eexists. vm_compute. reflexivity.
  - apply (clean_accuracy_oversized_batch id id id [0; 1; 2] [0; 1; 2] 5).
    simpl. lia.
  - eexists. vm_compute. reflexivity.
Qed.

(** C7, amended. [cheap] always returns; it sets the restart counts of the
    three adapters to 1 and the query budget of the square attack to 1000,
    and it clears [plus]; the list of attacks, the norm, epsilon, the
    seed, [verbose], the remaining fields, the store and the output are
    left as they were. *)
Theorem cheap_sets_adapters_and_clears_plus s :
  ∃ s', cheap s = Ok ((), s') ∧
    APGDAttack.n_restarts (apgd (self s')) = 1 ∧
    FABAttack.n_restarts (fab (self s')) = 1 ∧
    APGDAttack_targeted.n_restarts (apgd_targeted (self s')) = 1 ∧
    SquareAttack.n_queries (square (self s')) = 1000 ∧
    plus (self s') = false ∧
    attacks_to_run (self s') = attacks_to_run (self s) ∧
    heap s' = heap s ∧
    norm (self s') = norm (self s) ∧
    epsilon (self s') = epsilon (self s) ∧
    seed (self s') = seed (self s) ∧
    verbose (self s') = verbose (self s) ∧
    is_tf_model (self s') = is_tf_model (self s) ∧
    device (self s') = device (self s) ∧
    out s' = out s.
Proof. eexists. split; [reflexivity|]. by split_and!. Qed.

(** C7 as stated fails on an object with [plus] set: after [cheap] the flag
    is cleared. *)
Lemma cheap_changes_plus : ¬ cheap_keeps_orchestrator (Demo.start false true).
Proof.
  intros Hclaim. destruct (Hclaim _ eq_refl) as (Hsame & _).
  discriminate Hsame.
Qed.

(** * The claims on concrete runs *)

(** A run on three samples, the last one misclassified on the clean input:
    sample 1 is still robust at the end and kept its input. *)
Lemma robust_samples_keep_original_input_witness :
  ∃ l s',
    Demo.evaluate [0; 1; 2] [0; 1; 5] 2 (Demo.start true false) = Ok (l, s') ∧
    robust_flags l = [false; true; false] ∧
    x_adv l !! 1 = [0; 1; 2] !! 1.
Proof.
  eexists _, _. split; [vm_compute; reflexivity|]. split; [reflexivity|].
  eapply (robust_samples_keep_original_input Demo.shape Demo.stack true
            id id id Demo.clock
            (λ _, Demo.breaks_even) (λ _, Demo.breaks_even)
            (λ _, Demo.breaks_even) (λ _, Demo.breaks_even)
            [0; 1; 2] [0; 1; 5] 2 _ (Demo.start true false));
    [vm_compute; reflexivity | reflexivity].
Defined.

(** The flag of sample 0, cleared by the first stage, is still cleared
    after two more stages. *)
Lemma robust_flags_never_come_back_witness :
  ∃ l1 s1 l2 s2,
    Demo.stages [0; 1; 2] [0; 1; 5] 2 0%Z ["apgd-ce"]
      (mkLocals [true; true; false] [0; 1; 2] (2 # 3)%Q)
      (Demo.start false false) = Ok (l1, s1) ∧
    Demo.stages [0; 1; 2] [0; 1; 5] 2 0%Z (["apgd-ce"] ++ ["apgd-dlr"; "fab"])
      (mkLocals [true; true; false] [0; 1; 2] (2 # 3)%Q)
      (Demo.start false false) = Ok (l2, s2) ∧
    robust_flags l1 !! 0 = Some false ∧
    robust_flags l2 !! 0 = Some false.
Proof.
  eexists _, _, _, _. split; [vm_compute; reflexivity|].
  split; [vm_compute; reflexivity|]. split; [reflexivity|].
  eapply (robust_flags_never_come_back Demo.shape Demo.stack id id id Demo.clock
            (λ _, Demo.breaks_even) (λ _, Demo.breaks_even)
            (λ _, Demo.breaks_even) (λ _, Demo.breaks_even)
            [0; 1; 2] [0; 1; 5] 2 0%Z ["apgd-ce"] ["apgd-dlr"; "fab"]
            (mkLocals [true; true; false] [0; 1; 2] (2 # 3)%Q) _ _
            (Demo.start false false));
    [vm_compute; reflexivity | vm_compute; reflexivity | reflexivity].
Defined.

(** Both samples fall to the first stage: the only call of [perturb] is
    that stage's, also when two more names follow, one of them unknown. *)
Lemma no_stage_after_all_broken_witness :
  ∃ l1 s1,
    Demo.stages [0; 2] [0; 2] 2 0%Z ["apgd-ce"]
      (mkLocals [true; true] [0; 2] (2 # 2)%Q) (Demo.start false false)
    = Ok (l1, s1) ∧
    num_true (robust_flags l1) = 0 ∧
    perturb_shapes (out s1) = [[2; 3; 32; 32]] ∧
    Demo.stages [0; 2] [0; 2] 2 0%Z (["apgd-ce"] ++ ["no-such-attack"; "fab"])
      (mkLocals [true; true] [0; 2] (2 # 2)%Q) (Demo.start false false)
    = Ok (l1, s1).
Proof.
  eexists _, _. split; [vm_compute; reflexivity|].
  split; [reflexivity|]. split; [reflexivity|].
  apply (no_stage_after_all_broken Demo.shape Demo.stack id id id Demo.clock
           (λ _, Demo.breaks_even) (λ _, Demo.breaks_even)
           (λ _, Demo.breaks_even) (λ _, Demo.breaks_even)
           [0; 2] [0; 2] 2 0%Z ["apgd-ce"] ["no-such-attack"; "fab"]
           (mkLocals [true; true] [0; 2] (2 # 2)%Q) _
           (Demo.start false false));
    [vm_compute; reflexivity | reflexivity].
Defined.

(** One robust sample of shape (3, 32, 32): [perturb] is given a tensor of
    shape (1, 1, 3, 32, 32). *)
Lemma single_robust_sample_loses_batch_rank_witness :
  ∃ l' s',
    0 < 2 ∧
    num_true [true; false; false] = 1 ∧
    Demo.stage [0; 1; 2] [0; 9; 5] 2 0%Z "apgd-ce"
      (mkLocals [true; false; false] [0; 1; 2] (1 # 3)%Q)
      (Demo.start false false) = Ok (l', s') ∧
    ∃ shape,
      perturb_shapes (out s') = [] ++ [shape] ∧
      shape ≠ 1 :: Demo.shape ∧
      (shape = 1 :: 1 :: Demo.shape ∨ shape = 1 :: 1 :: 1 :: Demo.shape).
Proof.
  eexists _, _. split; [lia|]. split; [reflexivity|].
  split; [vm_compute; reflexivity|].
  eapply (single_robust_sample_loses_batch_rank Demo.shape Demo.stack
            id id id Demo.clock
           (λ _, Demo.breaks_even) (λ _, Demo.breaks_even)
           (λ _, Demo.breaks_even) (λ _, Demo.breaks_even)
           [0; 1; 2] [0; 9; 5] 2 0%Z "apgd-ce"
           (mkLocals [true; false; false] [0; 1; 2] (1 # 3)%Q) _
           (Demo.start false false));
    [lia | reflexivity | vm_compute; reflexivity].
Defined.

(** The constructor called with the default list and [plus=True]. *)
Lemma init_with_plus_then_run_raises_witness :
  "Linf" ∈ ["Linf"; "L2"] ∧
  module_heap !! default_attacks_loc = Some default_attacks ∧
  ∃ a h',
    __init__ "Linf" (3 # 10)%Q None true default_attacks_loc true false
      "cuda" module_heap = Ok (a, h') ∧
    attacks_to_run a = None ∧
    h' !! default_attacks_loc = Some (default_attacks ++ ["apgd-t"; "fab-t"]) ∧
    run_standard_evaluation Demo.shape Demo.stack true id id id Demo.clock
      (λ _, Demo.breaks_even) (λ _, Demo.breaks_even)
      (λ _, Demo.breaks_even) (λ _, Demo.breaks_even)
      [0; 1; 2] [0; 1; 5] 2 (mkState a h' 0 []) = Raise TypeError.
Proof.
  split; [constructor|]. split; [reflexivity|].
  apply (init_with_plus_then_run_raises Demo.shape Demo.stack true
           id id id Demo.clock
           (λ _, Demo.breaks_even) (λ _, Demo.breaks_even)
           (λ _, Demo.breaks_even) (λ _, Demo.breaks_even)
           "Linf" (3 # 10)%Q None true default_attacks_loc false "cuda"
           module_heap default_attacks [0; 1; 2] [0; 1; 5] 2 0 []);
    [constructor | reflexivity].
Defined.


(** * Further properties of the methods *)

(** A loop over [range(n)] whose body takes a property of the index [k]
    to the same property of [k + 1]. *)
Lemma for_each_seq_invariant {B} (P : nat → B → state → Prop)
    (body : nat → B → M B) n :
  (∀ k b s b' s', k < n → body k b s = Ok (b', s') → P k b s → P (S k) b' s') →
  ∀ b s b' s',
    for_each (seq 0 n) body b s = Ok (b', s') → P 0 b s → P n b' s'.
Proof.
  intros Hbody.
  assert (∀ m k b s b' s', k + m = n →
            for_each (seq k m) body b s = Ok (b', s') → P k b s → P n b' s')
    as Hgen.
  { induction m as [|m IH]; simpl; intros k b s b' s' Hkm Hrun HP.
    - apply ret_Ok in Hrun as [-> ->]. by replace n with k by lia.
    - apply bind_Ok in Hrun as (b1 & s1 & H1 & Hrun).
      apply (IH (S k) b1 s1); [lia | done |].
      apply (Hbody k b s); [lia | done | done]. }
  intros b s b' s'. by apply Hgen.
Qed.

Lemma slice_assign_length {A} (t : list A) start stop rhs t' :
  slice_assign t start stop rhs = Ok t' → length t' = length t.
Proof.
  unfold slice_assign, slice.
  destruct (Nat.eqb_spec (length rhs)
              (length (take (stop - start) (drop start t)))) as [Hlen|_].
  - intros [= <-]. rewrite !length_app, Hlen.
    rewrite !length_take, !length_drop. lia.
  - destruct rhs as [|v [|]]; intros [= <-].
    rewrite !length_app, length_replicate.
    rewrite !length_take, !length_drop. lia.
Qed.

Lemma num_true_le (old : list bool) : ∀ new,
  length new = length old →
  (∀ i, new !! i = Some true → old !! i = Some true) →
  num_true new ≤ num_true old.
Proof.
  unfold num_true. induction old as [|b old IH]; intros [|b' new] Hlen Hsub;
    simpl in Hlen; try done.
  assert (length (filter (λ b : bool, b = true) new)
          ≤ length (filter (λ b : bool, b = true) old)) as Hrest.
  { apply IH; [lia|]. intros i Hi. apply (Hsub (S i) Hi). }
  destruct b'.
  - pose proof (Hsub 0 eq_refl) as H0. injection H0 as ->.
    rewrite !filter_cons_True by done. simpl. lia.
  - rewrite (filter_cons_False _ false) by done.
    destruct b; [rewrite filter_cons_True by done; simpl; lia|].
    by rewrite (filter_cons_False _ false) by done.
Qed.

Section Coverage.

Context {Sample Logits : Type}.
Variable sample_shape : list nat.
Variable stack : list Sample → Sample.
Variable flat_view : bool.
Variable model : Sample → Logits.
Variable model_predict : Sample → Logits.
Variable argmax : Logits → nat.
Variable wall_clock : nat → Z.
Variable apgd_perturb :
  APGDAttack.t → list nat → list Sample → list nat → result (list Sample).
Variable fab_perturb :
  FABAttack.t → list nat → list Sample → list nat → result (list Sample).
Variable square_perturb :
  SquareAttack.t → list nat → list Sample → list nat → result (list Sample).
Variable apgd_targeted_perturb :
  APGDAttack_targeted.t → list nat → list Sample → list nat
  → result (list Sample).

Local Abbreviation run_attack' :=
  (run_attack wall_clock apgd_perturb fab_perturb square_perturb
     apgd_targeted_perturb).
Local Abbreviation attack_batch' :=
  (attack_batch sample_shape stack model model_predict argmax wall_clock
     apgd_perturb fab_perturb square_perturb apgd_targeted_perturb).
Local Abbreviation run_stage' :=
  (run_stage sample_shape stack model model_predict argmax wall_clock
     apgd_perturb fab_perturb square_perturb apgd_targeted_perturb).
Local Abbreviation stage_loop' :=
  (stage_loop sample_shape stack model model_predict argmax wall_clock
     apgd_perturb fab_perturb square_perturb apgd_targeted_perturb).
Local Abbreviation accuracy_batch' :=
  (accuracy_batch sample_shape model model_predict argmax).
Local Abbreviation evaluation_entry' :=
  (evaluation_entry sample_shape model model_predict argmax wall_clock).
Local Abbreviation evaluation_stages' :=
  (evaluation_stages sample_shape stack model model_predict argmax
     wall_clock apgd_perturb fab_perturb square_perturb
     apgd_targeted_perturb).
Local Abbreviation final_check' := (final_check sample_shape flat_view).
Local Abbreviation run_locals' :=
  (run_standard_evaluation_locals sample_shape stack flat_view model
     model_predict argmax wall_clock apgd_perturb fab_perturb square_perturb
     apgd_targeted_perturb).
Local Abbreviation run_standard_evaluation' :=
  (run_standard_evaluation sample_shape stack flat_view model model_predict
     argmax wall_clock apgd_perturb fab_perturb square_perturb
     apgd_targeted_perturb).
Local Abbreviation clean_accuracy' :=
  (clean_accuracy model model_predict argmax).
Local Abbreviation individual_step' :=
  (individual_step sample_shape stack flat_view model model_predict argmax
     wall_clock apgd_perturb fab_perturb square_perturb
     apgd_targeted_perturb).
Local Abbreviation run_individual' :=
  (run_standard_evaluation_individual sample_shape stack flat_view model
     model_predict argmax wall_clock apgd_perturb fab_perturb square_perturb
     apgd_targeted_perturb).
Local Abbreviation predicted' := (predicted model model_predict argmax).

Ltac inv_state :=
  repeat match goal with
    | H : modify_self _ _ = Ok (_, ?s') |- _ =>
        apply modify_self_Ok in H; subst s'
    | H : emit _ _ = Ok (_, ?s') |- _ => apply emit_Ok in H; subst s'
    | H : print _ _ = Ok (_, ?s') |- _ => apply emit_Ok in H; subst s'
    | H : get_logits _ _ _ _ = Ok (_, ?s') |- _ =>
        apply get_logits_Ok in H; subst s'
    | H : time _ _ = Ok (_, ?s') |- _ =>
        apply time_Ok in H as [-> ?]; subst s'
    end.

Lemma accuracy_pass_length x_orig y_orig bs xs flags flags' s s' :
  for_each xs (accuracy_batch' x_orig y_orig bs) flags s = Ok (flags', s') →
  length flags' = length flags.
Proof.
  intros Hrun.
  apply (for_each_invariant (λ b _, length b = length flags)) in Hrun;
    [done| |done].
  intros k b s1 b' s1' Hb Hlen. unfold accuracy_batch in Hb. inv_run.
  match goal with
  | H : slice_assign _ _ _ _ = Ok _ |- _ => apply slice_assign_length in H
  end.
  congruence.
Qed.

(** X1. The tensor returned by [run_standard_evaluation] has one row per
    input sample, and so has the vector of robust flags. *)
Theorem run_returns_one_row_per_sample x_orig y_orig bs (l : locals) s s' :
  run_locals' x_orig y_orig bs s = Ok (l, s') →
  length (x_adv l) = length x_orig ∧ length (robust_flags l) = length x_orig.
Proof.
  unfold run_standard_evaluation_locals, evaluation_stages,
    evaluation_entry.
  intros Hrun. inv_run.
  match goal with
  | H : for_each _ (accuracy_batch' _ _ _) _ _ = Ok _ |- _ =>
      apply accuracy_pass_length in H; rewrite length_replicate in H
  end.
  match goal with
  | H : stage_loop' _ _ _ _ _ _ _ = Ok _ |- _ =>
      apply stage_loop_shrinks in H as (Hflags & Hadv & _)
  end.
  simpl in Hflags, Hadv. split; congruence.
Qed.

(** X2. The number of robust samples never grows over the stages of the
    loop. *)
Theorem robust_count_never_grows x_orig y_orig bs startt attacks
    (l l' : locals) s s' :
  stage_loop' x_orig y_orig bs startt attacks l s = Ok (l', s') →
  num_true (robust_flags l') ≤ num_true (robust_flags l).
Proof.
  intros Hrun. apply stage_loop_shrinks in Hrun as (Hlen & _ & Hsub).
  apply num_true_le; [done|]. intros i Hi. by destruct (Hsub i Hi).
Qed.

Lemma run_stage_accuracy x_orig y_orig bs startt attack (l l' : locals) s s' :
  run_stage' x_orig y_orig bs startt attack l s = Ok (l', s') →
  py_div (num_true (robust_flags l')) (length x_orig)
  = Ok (robust_accuracy l').
Proof. unfold run_stage. intros Hrun. by inv_run. Qed.

Lemma stage_loop_accuracy x_orig y_orig bs startt attacks :
  ∀ (l l' : locals) s s',
    stage_loop' x_orig y_orig bs startt attacks l s = Ok (l', s') →
    py_div (num_true (robust_flags l)) (length x_orig)
    = Ok (robust_accuracy l) →
    py_div (num_true (robust_flags l')) (length x_orig)
    = Ok (robust_accuracy l').
Proof.
  induction attacks as [|attack rest IH]; simpl; intros l l' s s' Hrun Hacc.
  - by apply ret_Ok in Hrun as [-> ->].
  - destruct (num_true (robust_flags l) =? 0).
    + by apply ret_Ok in Hrun as [-> ->].
    + apply bind_Ok in Hrun as (l1 & s1 & H1 & Hrun).
      eapply IH; [exact Hrun|]. by eapply run_stage_accuracy.
Qed.

(** X3. At the [return] of [run_standard_evaluation] there is at least one
    sample, and the local [robust_accuracy] (the number printed last when
    [verbose] is set) is the number of true robust flags over the number
    of samples, whether the loop ran to its end or was left early. *)
Theorem robust_accuracy_is_share_of_true_flags x_orig y_orig bs (l : locals)
    s s' :
  run_locals' x_orig y_orig bs s = Ok (l, s') →
  length x_orig ≠ 0 ∧
  robust_accuracy l
  = (Z.of_nat (num_true (robust_flags l)) # Pos.of_nat (length x_orig))%Q.
Proof.
  unfold run_standard_evaluation_locals, evaluation_stages,
    evaluation_entry.
  intros Hrun. inv_run.
  match goal with
  | H : stage_loop' _ _ _ _ _ _ _ = Ok _ |- _ =>
      apply stage_loop_accuracy in H; [|done]
  end.
  match goal with
  | H : py_div _ _ = Ok (robust_accuracy _) |- _ =>
      unfold py_div in H;
      destruct (Nat.eqb_spec (length x_orig) 0); [done|];
      by injection H as <-
  end.
Qed.

(** ** The accuracy pass *)

Lemma get_logits_predicted (x : list Sample) s o s' :
  get_logits model model_predict x s = Ok (o, s') →
  map argmax o = predicted' (self s) x ∧ s' = s.
Proof.
  unfold get_logits, predicted. intros Hrun. inv_run.
  destruct (negb (is_tf_model (self s))); by apply ret_Ok in Hrun as [-> ->].
Qed.

Lemma predicted_length a (x : list Sample) :
  length (predicted' a x) = length x.
Proof.
  unfold predicted. destruct (negb (is_tf_model a)); by rewrite !length_map.
Qed.

Lemma predicted_slice a (x : list Sample) start stop :
  predicted' a (slice x start stop) = slice (predicted' a x) start stop.
Proof.
  unfold predicted, slice. destruct (negb (is_tf_model a));
    by rewrite !skipn_map, !firstn_map.
Qed.

Lemma tensor_eq_same_length a b r :
  tensor_eq a b = Ok r → length a = length b → r = zip_with Nat.eqb a b.
Proof.
  unfold tensor_eq. intros Hr Hlen.
  rewrite (proj2 (Nat.eqb_eq _ _) Hlen) in Hr. by injection Hr as <-.
Qed.

Lemma zip_with_slice {A B C} (f : A → B → C) l k start stop :
  zip_with f (slice l start stop) (slice k start stop)
  = slice (zip_with f l k) start stop.
Proof. unfold slice. by rewrite <- zip_with_take, <- zip_with_drop. Qed.

(** One batch of the accuracy pass on well-formed input: the flags of the
    batch become the comparison of labels and predictions. *)
Lemma accuracy_batch_flags x_orig y_orig bs k flags flags' s s' :
  length y_orig = length x_orig →
  length flags = length x_orig →
  k * bs < length x_orig →
  accuracy_batch' x_orig y_orig bs k flags s = Ok (flags', s') →
  s' = s ∧
  flags' = take (k * bs) flags
           ++ slice (zip_with Nat.eqb y_orig (predicted' (self s) x_orig))
                (k * bs) (((k + 1) * bs) `min` length x_orig)
           ++ drop (((k + 1) * bs) `min` length x_orig) flags.
Proof.
  intros Hy Hflags Hk Hrun. unfold accuracy_batch in Hrun. inv_run.
  match goal with
  | H : get_logits _ _ _ _ = Ok _ |- _ =>
      apply get_logits_predicted in H as [Hpred ->]
  end.
  split; [done|].
  set (stop := ((k + 1) * bs) `min` length x_orig) in *.
  assert (k * bs ≤ stop) as Hstop by (unfold stop; lia).
  assert (stop ≤ length x_orig) as HstopN by (unfold stop; lia).
  match goal with
  | H : tensor_eq _ _ = Ok _ |- _ =>
      rewrite Hpred, predicted_slice in H;
      apply tensor_eq_same_length in H;
        [|unfold slice; rewrite !length_take, !length_drop,
            predicted_length; lia];
      rewrite zip_with_slice in H; subst
  end.
  match goal with
  | H : slice_assign _ _ _ _ = Ok _ |- _ =>
      unfold slice_assign in H;
      rewrite (proj2 (Nat.eqb_eq _ _)) in H;
        [injection H as <-|]
  end.
  - do 3 f_equal. unfold slice. rewrite length_take, length_drop. lia.
  - unfold slice. rewrite !length_take, !length_drop, length_zip_with,
      predicted_length. lia.
Qed.

Lemma ceil_div_bounds n bs k :
  ceil_div n bs = Ok k → 0 < bs ∧ n ≤ k * bs ∧ (k ≠ 0 → (k - 1) * bs < n).
Proof.
  unfold ceil_div. destruct (Nat.eqb_spec bs 0) as [|Hbs]; [done|].
  intros [= <-].
  pose proof (Nat.Div0.mul_div_le (n + bs - 1) bs).
  pose proof (Nat.mul_succ_div_gt (n + bs - 1) bs Hbs).
  split; [lia|]. split; nia.
Qed.

(** The whole accuracy pass on well-formed input. *)
Lemma accuracy_pass_flags x_orig y_orig bs n flags s s' :
  length y_orig = length x_orig →
  ceil_div (length x_orig) bs = Ok n →
  for_each (seq 0 n) (accuracy_batch' x_orig y_orig bs)
    (replicate (length x_orig) false) s = Ok (flags, s') →
  s' = s ∧ flags = zip_with Nat.eqb y_orig (predicted' (self s) x_orig).
Proof.
  intros Hy Hn Hrun. apply ceil_div_bounds in Hn as (Hbs & Hup & Hlow).
  set (target := zip_with Nat.eqb y_orig (predicted' (self s) x_orig)).
  assert (length target = length x_orig) as Htarget.
  { unfold target. rewrite length_zip_with, predicted_length. lia. }
  apply (for_each_seq_invariant
           (λ k b s1, s1 = s ∧ length b = length x_orig ∧
                      take ((k * bs) `min` length x_orig) b
                      = take ((k * bs) `min` length x_orig) target))
    in Hrun.
  - destruct Hrun as (-> & Hlen & Htake). split; [done|].
    rewrite Nat.min_r in Htake by lia.
    rewrite !take_ge in Htake by lia. done.
  - subst target. intros k b s1 b' s1' Hk Hb (-> & Hlen & Htake).
    assert (k * bs < length x_orig) as Hkbs by nia.
    apply accuracy_batch_flags in Hb as [-> ->]; [|done..].
    split; [done|]. rewrite Nat.min_l in Htake by lia.
    set (stop := (S k * bs) `min` length x_orig).
    replace (((k + 1) * bs) `min` length x_orig) with stop
      by (unfold stop; f_equal; lia).
    assert (k * bs ≤ stop ∧ stop ≤ length x_orig) as [Hs1 Hs2]
      by (unfold stop; lia).
    rewrite Htake. unfold slice. rewrite app_assoc, take_take_drop.
    replace (k * bs + (stop - k * bs)) with stop by lia.
    split.
    + rewrite length_app, length_take, length_drop. lia.
    + rewrite take_app_length'; [done|]. rewrite length_take. lia.
  - split_and!; [done | by rewrite length_replicate | done].
Qed.

(** X4. On well-formed input (one label per sample) the accuracy pass of
    lines 84-94 leaves, for every positive batch size, the flag of each
    sample true exactly when its label is the predicted class; no sample
    is skipped, and the state is untouched.  (With a batch size of zero
    line 84 raises, and no pass is made.) *)
Theorem accuracy_pass_marks_correct_samples x_orig y_orig bs n flags s s' :
  length y_orig = length x_orig →
  ceil_div (length x_orig) bs = Ok n →
  for_each (seq 0 n) (accuracy_batch' x_orig y_orig bs)
    (replicate (length x_orig) false) s = Ok (flags, s') →
  s' = s ∧ flags = zip_with Nat.eqb y_orig (predicted' (self s) x_orig).
Proof. apply accuracy_pass_flags. Qed.

(** ** Which entries a stage may write *)

Lemma nonzero_from_true flags : ∀ k i,
  i ∈ nonzero_from k flags → flags !! (i - k) = Some true.
Proof.
  induction flags as [|b flags IH]; simpl; intros k i Hi.
  - by apply elem_of_nil in Hi.
  - assert (i ∈ nonzero_from (S k) flags → (b :: flags) !! (i - k) = Some true)
      as Hrest.
    { intros Hin. pose proof (nonzero_from_bound _ _ _ Hin).
      assert (S k ≤ i) as Hle.
      { clear -Hin. revert k Hin. induction flags as [|c flags IHf];
          simpl; intros k Hin; [by apply elem_of_nil in Hin|].
        destruct c; [apply elem_of_cons in Hin as [->|Hin]; [lia|]|];
          apply IHf in Hin; lia. }
      apply IH in Hin. replace (i - k) with (S (i - S k)) by lia. done. }
    destruct b; [|by apply Hrest].
    apply elem_of_cons in Hi as [->|Hi]; [|by apply Hrest].
    by rewrite Nat.sub_diag.
Qed.

Lemma idx_slice_subset t start stop t' :
  idx_slice t start stop = Ok t' → ∀ i, i ∈ ivals t' → i ∈ ivals t.
Proof.
  unfold idx_slice. destruct (ishape t) as [|d0 rest]; [done|].
  intros [= <-] i Hi. simpl in Hi. eapply subseteq_drop, subseteq_take, Hi.
Qed.

Lemma attack_batch_writes x_orig y_orig bs num_robust n_batches attack idcs
    batch_idx (l l' : locals) s s' :
  attack_batch' x_orig y_orig bs num_robust n_batches attack idcs batch_idx
    l s = Ok (l', s') →
  ∀ j, j ∉ ivals idcs → x_adv l' !! j = x_adv l !! j.
Proof.
  unfold attack_batch. intros Hrun j Hj. inv_run.
  repeat match goal with
    | H : index_put _ _ _ = Ok _ |- _ => apply index_put_Ok in H as (_ & Hout)
    | H : masked (ivals _) _ = Ok _ |- _ =>
        pose proof (masked_Ok_subset _ _ _ H) as Hsub; clear H
    | H : idx_slice _ _ _ = Ok _ |- _ =>
        pose proof (idx_slice_subset _ _ _ _ H) as Hcut; clear H
    end.
  simpl. apply Hout. intros Hin. by apply Hj, Hcut, Hsub.
Qed.

Lemma run_stage_writes x_orig y_orig bs startt attack (l l' : locals) s s' :
  run_stage' x_orig y_orig bs startt attack l s = Ok (l', s') →
  ∀ j, robust_flags l !! j ≠ Some true → x_adv l' !! j = x_adv l !! j.
Proof.
  unfold run_stage. intros Hrun j Hj. inv_run.
  match goal with
  | H : for_each _ _ _ _ = Ok _ |- _ =>
      apply (for_each_invariant (λ b _, x_adv b !! j = x_adv l !! j)) in H;
        [done| |done]
  end.
  intros k b sa b' sb Hb Hkeep. rewrite <- Hkeep.
  eapply attack_batch_writes; [exact Hb|].
  rewrite robust_lin_idcs_vals. intros Hin. apply Hj.
  apply nonzero_from_true in Hin. by rewrite Nat.sub_0_r in Hin.
Qed.

Lemma stage_loop_writes x_orig y_orig bs startt attacks :
  ∀ (l l' : locals) s s',
    stage_loop' x_orig y_orig bs startt attacks l s = Ok (l', s') →
    ∀ j, robust_flags l !! j ≠ Some true → x_adv l' !! j = x_adv l !! j.
Proof.
  induction attacks as [|attack rest IH]; simpl; intros l l' s s' Hrun j Hj.
  - by apply ret_Ok in Hrun as [-> ->].
  - destruct (num_true (robust_flags l) =? 0).
    + by apply ret_Ok in Hrun as [-> ->].
    + apply bind_Ok in Hrun as (l1 & s1 & H1 & Hrun).
      rewrite (IH _ _ _ _ Hrun j).
      * by eapply run_stage_writes.
      * intros Htrue. apply Hj.
        apply run_stage_shrinks in H1 as (_ & _ & Hsub).
        by destruct (Hsub j Htrue).
Qed.

(** X5. A sample the model gets wrong on the clean input is never attacked
    or rewritten: on well-formed input, when sample [i] has a label other
    than its predicted class, at the [return] its robust flag is false and
    its row of [x_adv] is the original input. *)
Theorem misclassified_samples_are_left_alone x_orig y_orig bs (l : locals)
    s s' i xi yi p :
  length y_orig = length x_orig →
  x_orig !! i = Some xi →
  y_orig !! i = Some yi →
  predicted' (self s) x_orig !! i = Some p →
  yi ≠ p →
  run_locals' x_orig y_orig bs s = Ok (l, s') →
  robust_flags l !! i = Some false ∧ x_adv l !! i = Some xi.
Proof.
  intros Hy Hxi Hyi Hp Hne Hrun.
  apply run_locals_Ok in Hrun as (s2 & Hstages & _).
  apply evaluation_stages_Ok in Hstages
    as (en & s0 & attacks & Hentry & _ & Hloop).
  apply evaluation_entry_Ok in Hentry
    as (s1 & n & Hupd & Hn & Hpass & _ & Hadv & _).
  apply update_attacks_list_Ok in Hupd as (_ & _ & _ & _ & Hself & _).
  eapply accuracy_pass_flags in Hpass as [_ Hflags]; [|done..].
  rewrite Hself in Hflags.
  assert (robust_flags en.2 !! i = Some false) as Hfalse.
  { rewrite Hflags, lookup_zip_with, Hyi. simpl. rewrite Hp. simpl.
    by rewrite (proj2 (Nat.eqb_neq _ _) Hne). }
  pose proof (stage_loop_writes _ _ _ _ _ _ _ _ _ Hloop i) as Hkeep.
  apply stage_loop_shrinks, shrinks_never_resurrected in Hloop as Hmono.
  split.
  - by apply Hmono.
  - rewrite Hkeep; [by rewrite Hadv|]. by rewrite Hfalse.
Qed.

(** ** The batches of a stage *)

Lemma when_print_shapes b m s u s' :
  when b (print m) s = Ok (u, s') →
  perturb_shapes (out s') = perturb_shapes (out s).
Proof.
  intros Hrun. apply when_Ok in Hrun as [[_ Hrun]|[_ ->]]; [|done].
  apply emit_Ok in Hrun as ->. simpl. apply perturb_shapes_snoc_print.
Qed.

Lemma when_timed_print_shapes b (f : Z → message) s u s' :
  when b (bind (time wall_clock) (λ t, print (f t))) s = Ok (u, s') →
  perturb_shapes (out s') = perturb_shapes (out s).
Proof.
  intros Hrun. apply when_Ok in Hrun as [[_ Hrun]|[_ ->]]; [|done].
  inv_run. inv_state. simpl. apply perturb_shapes_snoc_print.
Qed.

(** X6. A stage that returns has called [perturb] once per batch:
    [ceil(num_robust / bs)] times. *)
Theorem stage_calls_perturb_once_per_batch x_orig y_orig bs startt attack
    (l l' : locals) s s' :
  run_stage' x_orig y_orig bs startt attack l s = Ok (l', s') →
  ∃ n, ceil_div (num_true (robust_flags l)) bs = Ok n ∧
       length (perturb_shapes (out s'))
       = length (perturb_shapes (out s)) + n.
Proof.
  unfold run_stage. intros Hrun. inv_run.
  eexists. split; [done|].
  match goal with
  | H : for_each _ _ _ _ = Ok _ |- _ =>
      apply (for_each_seq_invariant
               (λ k _ sa, length (perturb_shapes (out sa))
                          = length (perturb_shapes (out s)) + k)) in H;
        [|intros k b sa b' sb _ Hb Hk;
          apply attack_batch_out in Hb as (cut & _ & ->);
          rewrite length_app, Hk; simpl; lia
         |lia]
  end.
  match goal with
  | H : when _ _ _ = Ok _ |- _ =>
      apply (when_timed_print_shapes _ (λ t, MsgStage _ _ (t - _)%Z)) in H;
      rewrite H
  end.
  done.
Qed.

(** X7. With more than one robust sample, and samples that do not have
    exactly two axes, every batch of a stage reaches [perturb] with batch
    rank: its shape is a number of rows between 1 and [bs] in front of the
    sample shape, and the rows of all batches add up to the number of
    robust samples. *)
Theorem batches_of_a_stage_have_batch_rank x_orig y_orig bs startt attack
    (l l' : locals) s s' :
  1 < num_true (robust_flags l) →
  length sample_shape ≠ 2 →
  run_stage' x_orig y_orig bs startt attack l s = Ok (l', s') →
  ∃ sizes,
    perturb_shapes (out s')
    = perturb_shapes (out s) ++ map (λ k, k :: sample_shape) sizes ∧
    Forall (λ k, 1 ≤ k ≤ bs) sizes ∧
    sum_list sizes = num_true (robust_flags l).
Proof.
  intros Hmany Hrank Hrun. unfold run_stage in Hrun. inv_run.
  set (n := num_true (robust_flags l)) in *.
  match goal with
  | H : ceil_div _ _ = Ok _ |- _ =>
      apply ceil_div_bounds in H as (Hbs & Hup & Hlow)
  end.
  rewrite (proj2 (Nat.ltb_lt _ _) Hmany) in *.
  match goal with
  | H : when _ _ _ = Ok _ |- _ =>
      apply (when_timed_print_shapes _ (λ t, MsgStage _ _ (t - _)%Z)) in H;
      rewrite H; clear H
  end.
  match goal with
  | H : for_each _ _ _ _ = Ok _ |- _ =>
      apply (for_each_seq_invariant
               (λ k _ sa, ∃ sizes,
                  perturb_shapes (out sa)
                  = perturb_shapes (out s)
                    ++ map (λ k, k :: sample_shape) sizes ∧
                  Forall (λ k, 1 ≤ k ≤ bs) sizes ∧
                  sum_list sizes = (k * bs) `min` n)) in H
  end.
  - match goal with
    | H : ∃ _, _ |- _ => destruct H as (sizes & Hshapes & Hall & Hsum)
    end.
    exists sizes. split_and!; [done..|]. lia.
  - intros k b sa b' sb Hk Hb (sizes & Hshapes & Hall & Hsum).
    assert (k * bs < n) as Hkbs by nia.
    apply attack_batch_out in Hb as (cut & Hcut & Hcall).
    unfold idx_slice, squeeze_, nonzero in Hcut. simpl in Hcut.
    rewrite nonzero_from_length in Hcut. fold n in Hcut.
    rewrite filter_cons_True in Hcut by lia. simpl in Hcut.
    injection Hcut as <-.
    set (size := (((k + 1) * bs) `min` n) `min` n - k * bs) in *.
    assert (1 ≤ size ≤ bs) as Hsize by (unfold size; lia).
    exists (sizes ++ [size]). split_and!.
    + rewrite Hcall, Hshapes, map_app, <- app_assoc. do 2 f_equal.
      unfold batch_shape. simpl.
      by destruct (Nat.eqb_spec (length sample_shape) 2).
    + apply Forall_app. split; [done|]. by apply Forall_singleton.
    + rewrite sum_list_with_app, Hsum. simpl. unfold size. lia.
  - exists []. split_and!; [by rewrite app_nil_r | done | simpl; lia].
Qed.

(** ** What a run prints and which attacks it calls *)

Lemma printed_snoc_call o attack sh :
  printed (o ++ [Perturb attack sh]) = printed o.
Proof. unfold printed. rewrite omap_app. simpl. apply app_nil_r. Qed.

Lemma names_snoc_call o attack sh :
  perturb_names (o ++ [Perturb attack sh]) = perturb_names o ++ [attack].
Proof. unfold perturb_names. by rewrite omap_app. Qed.

Lemma names_snoc_print o m : perturb_names (o ++ [Print m]) = perturb_names o.
Proof. unfold perturb_names. rewrite omap_app. simpl. apply app_nil_r. Qed.

(** A dispatch that returns has logged one call, under the name of the
    attack, and printed nothing. *)
Lemma run_attack_events attack sh (x : list Sample) y s r s' :
  run_attack' attack sh x y s = Ok (r, s') →
  out s' = out s ++ [Perturb attack sh].
Proof.
  unfold run_attack. intros Hrun.
  repeat match type of Hrun with
    | context [String.eqb attack ?name] => destruct (String.eqb attack name)
    end;
    inv_run; inv_state;
    match goal with
    | H : get_seed _ _ = Ok (_, ?s1) |- _ =>
        apply get_seed_Ok in H as (_ & _ & Hout); simpl in *
    end;
    by rewrite Hout.
Qed.

(** What one batch adds to the output: the call, then one line when
    [verbose] is set. *)
Lemma attack_batch_events x_orig y_orig bs num_robust n_batches attack idcs
    batch_idx (l l' : locals) s s' :
  attack_batch' x_orig y_orig bs num_robust n_batches attack idcs batch_idx
    l s = Ok (l', s') →
  perturb_names (out s') = perturb_names (out s) ++ [attack] ∧
  (verbose (self s) = false → printed (out s') = printed (out s)).
Proof.
  unfold attack_batch. intros Hrun. inv_run. inv_state.
  match goal with
  | H : run_attack' _ _ _ _ _ = Ok _ |- _ =>
      pose proof H as Hkeep;
      apply run_attack_keeps in Hkeep as (_ & Hverbose & _);
      apply run_attack_events in H as Hout
  end.
  match goal with
  | H : when _ _ _ = Ok _ |- _ => apply when_Ok in H as [[Hv H]|[Hv ->]]
  end.
  - inv_state. simpl. rewrite Hout, names_snoc_print, names_snoc_call.
    split; [done|]. congruence.
  - rewrite Hout, names_snoc_call, printed_snoc_call. done.
Qed.

Lemma run_stage_events x_orig y_orig bs startt attack (l l' : locals) s s' :
  run_stage' x_orig y_orig bs startt attack l s = Ok (l', s') →
  (∃ n, perturb_names (out s')
        = perturb_names (out s) ++ replicate n attack) ∧
  (verbose (self s) = false → printed (out s') = printed (out s)).
Proof.
  unfold run_stage. intros Hrun. inv_run.
  match goal with
  | H : for_each _ _ _ _ = Ok (_, ?sa) |- _ =>
      assert (keeps_config s sa) as (_ & Hverbose & _);
        [apply (for_each_invariant (λ _ sb, keeps_config s sb)) in H;
           [done
           |intros ????? Hb Hs; eapply keeps_config_trans;
              [exact Hs | eapply attack_batch_keeps, Hb]
           |apply keeps_config_refl]
        |];
      apply (for_each_seq_invariant
               (λ k _ sb,
                  perturb_names (out sb)
                  = perturb_names (out s) ++ replicate k attack ∧
                  (verbose (self s) = false →
                   verbose (self sb) = false ∧
                   printed (out sb) = printed (out s)))) in H
  end.
  - match goal with
    | H : _ ∧ _ |- _ => destruct H as [Hnames Hquiet]
    end.
    match goal with
    | H : when _ _ _ = Ok _ |- _ => apply when_Ok in H as [[Hv H]|[Hv ->]]
    end.
    + inv_run. inv_state. simpl. rewrite names_snoc_print. split; [eauto|].
      congruence.
    + split; [eauto|]. intros Hq. by destruct (Hquiet Hq).
  - intros k b sa b' sb Hk Hb [Hnames Hquiet].
    pose proof Hb as Hkeep.
    apply attack_batch_keeps in Hkeep as (_ & Hvb & _).
    apply attack_batch_events in Hb as [Hn Hp]. split.
    + rewrite Hn, Hnames, <- app_assoc. f_equal.
      replace (S k) with (k + 1) by lia. by rewrite replicate_add.
    + intros Hq. destruct (Hquiet Hq) as [Hva Hpa]. split; [congruence|].
      by rewrite Hp.
  - split; [by rewrite app_nil_r | done].
Qed.

Lemma stage_loop_events x_orig y_orig bs startt attacks :
  ∀ (l l' : locals) s s',
    stage_loop' x_orig y_orig bs startt attacks l s = Ok (l', s') →
    (∃ names, perturb_names (out s') = perturb_names (out s) ++ names ∧
              Forall (λ a, a ∈ attacks) names) ∧
    (verbose (self s) = false → printed (out s') = printed (out s)).
Proof.
  induction attacks as [|attack rest IH]; simpl; intros l l' s s' Hrun.
  - apply ret_Ok in Hrun as [-> ->]. split; [|done].
    exists []. by rewrite app_nil_r.
  - destruct (num_true (robust_flags l) =? 0).
    + apply ret_Ok in Hrun as [-> ->]. split; [|done].
      exists []. by rewrite app_nil_r.
    + apply bind_Ok in Hrun as (l1 & s1 & H1 & Hrun).
      pose proof H1 as Hkeep.
      apply run_stage_keeps in Hkeep as (_ & Hverbose & _).
      apply run_stage_events in H1 as [[n Hn] Hp].
      apply IH in Hrun as [(names & Hnames & Hall) Hq]. split.
      * exists (replicate n attack ++ names). split.
        -- by rewrite Hnames, Hn, app_assoc.
        -- apply Forall_app. split.
           ++ apply Forall_replicate. by left.
           ++ eapply Forall_impl; [exact Hall|]. intros a Ha. by right.
      * intros Hv. rewrite Hq by congruence. by apply Hp.
Qed.

Lemma list_extend_out o xs s u s' :
  list_extend o xs s = Ok (u, s') → out s' = out s.
Proof.
  unfold list_extend. destruct o as [l|]; [|done]. intros Hrun.
  apply bind_Ok in Hrun as (v & s1 & Hd & Hrun).
  apply deref_state in Hd as ->. by apply store_Ok in Hrun as ->.
Qed.

Lemma list_remove_out o x s u s' :
  list_remove o x s = Ok (u, s') → out s' = out s.
Proof.
  unfold list_remove. destruct o as [l|]; [|done]. intros Hrun.
  apply bind_Ok in Hrun as (v & s1 & Hd & Hrun).
  apply deref_state in Hd as ->.
  destruct (remove_first x v); [|done]. by apply store_Ok in Hrun as ->.
Qed.

Lemma contains_state x o s b s' : contains x o s = Ok (b, s') → s' = s.
Proof.
  unfold contains. intros Hrun.
  apply bind_Ok in Hrun as (v & s1 & Hd & Hrun).
  apply deref_state in Hd as ->. by apply ret_Ok in Hrun as [_ ->].
Qed.

(** The update on entry prints nothing and calls nothing. *)
Lemma update_attacks_list_out s u s' :
  update_attacks_list s = Ok (u, s') → out s' = out s.
Proof.
  unfold update_attacks_list. intros Hrun.
  apply bind_Ok in Hrun as (a & s0 & Hget & Hrun).
  apply get_self_Ok in Hget as [-> ->].
  destruct (plus (self s));
    apply bind_Ok in Hrun as (u1 & s1 & H1 & H2);
    apply bind_Ok in H1 as (b1 & t1 & Hc1 & Hw1);
    apply bind_Ok in H2 as (b2 & t2 & Hc2 & Hw2);
    apply contains_state in Hc1 as ->; apply contains_state in Hc2 as ->;
    apply when_Ok in Hw1 as [[_ Hw1]|[_ ->]];
    apply when_Ok in Hw2 as [[_ Hw2]|[_ ->]];
    repeat match goal with
      | H : list_extend _ _ _ = Ok _ |- _ => apply list_extend_out in H
      | H : list_remove _ _ _ = Ok _ |- _ => apply list_remove_out in H
      end;
    congruence.
Qed.

Lemma final_check_events (l : @locals Sample) s u s' :
  final_check' l s = Ok (u, s') →
  perturb_names (out s') = perturb_names (out s) ∧
  (verbose (self s) = false → s' = s).
Proof.
  unfold final_check. intros Hrun. inv_run.
  apply when_Ok in Hrun as [[Hv Hrun]|[_ ->]]; [|done].
  inv_run. inv_state.
  match goal with
  | H : (if _ then _ else _) _ = Ok (_, ?s1) |- _ =>
      assert (s1 = s) as ->
        by (repeat match type of H with
              | context [String.eqb ?a ?b] => destruct (String.eqb a b)
              end; first [by apply lift_Ok in H as [_ ->] | done])
  end.
  simpl. rewrite !names_snoc_print. split; [done | congruence].
Qed.

(** What a whole run adds to the output, relative to the list the update
    on entry leaves in [attacks_to_run]. *)
Lemma run_locals_events x_orig y_orig bs (l : locals) s s' :
  run_locals' x_orig y_orig bs s = Ok (l, s') →
  ∃ l0 v', attacks_to_run (self s) = Some l0 ∧ heap s' !! l0 = Some v' ∧
    (∃ names, perturb_names (out s') = perturb_names (out s) ++ names ∧
              Forall (λ a, a ∈ v') names) ∧
    (verbose (self s) = false → printed (out s') = printed (out s)).
Proof.
  intros Hrun. pose proof Hrun as Hkeep.
  apply run_locals_after_update in Hkeep as (u & s1 & Hupd & Hkeep).
  apply run_locals_Ok in Hrun as (s3 & Hstages & Hcheck).
  apply evaluation_stages_Ok in Hstages
    as (en & s0 & attacks & Hentry & Hderef & Hloop).
  apply evaluation_entry_Ok in Hentry
    as (s1' & n & Hupd' & _ & _ & _ & _ & Hself0 & Hheap0 & Hout0).
  destruct u. assert (s1' = s1) as -> by congruence.
  pose proof (update_attacks_list_out _ _ _ Hupd) as Hout1.
  apply update_attacks_list_Ok in Hupd as (l0 & v & Hl0 & Hv & Hself & Hheap).
  destruct Hkeep as (_ & _ & _ & Hh & _).
  exists l0. eexists. split; [done|]. split; [by rewrite Hh|].
  rewrite Hself0, Hself, Hl0 in Hderef. apply deref_Ok in Hderef as [Hlist _].
  rewrite Hheap0, Hheap in Hlist. injection Hlist as <-.
  apply final_check_events in Hcheck as [Hfn Hfq].
  pose proof Hloop as Hsk. apply stage_loop_keeps in Hsk as (_ & Hsv & _).
  apply stage_loop_events in Hloop as [(names & Hnames & Hall) Hsq].
  split.
  - exists names. split; [|done]. rewrite Hfn, Hnames, Hout0, <- Hout1.
    destruct (verbose (self s1));
      [by rewrite names_snoc_print | by rewrite app_nil_r].
  - intros Hq. rewrite Hfq by (rewrite Hsv, Hself0, Hself; done).
    rewrite Hsq by (by rewrite Hself0, Hself).
    rewrite Hout0, Hself, Hq, app_nil_r. by rewrite Hout1.
Qed.

(** X8. With [verbose] cleared, a run that returns has printed nothing. *)
Theorem quiet_run_prints_nothing x_orig y_orig bs (l : locals) s s' :
  verbose (self s) = false →
  run_locals' x_orig y_orig bs s = Ok (l, s') →
  printed (out s') = printed (out s).
Proof.
  intros Hquiet Hrun.
  apply run_locals_events in Hrun as (l0 & v' & _ & _ & _ & Hq). by apply Hq.
Qed.

(** X9. A run calls no attack outside its list: every call of [perturb]
    made by a run that returns is for a name in the list that
    [attacks_to_run] holds at the [return]. *)
Theorem run_calls_only_listed_attacks x_orig y_orig bs (l : locals) s s' :
  run_locals' x_orig y_orig bs s = Ok (l, s') →
  ∃ l0 v' names,
    attacks_to_run (self s') = Some l0 ∧ heap s' !! l0 = Some v' ∧
    perturb_names (out s') = perturb_names (out s) ++ names ∧
    Forall (λ a, a ∈ v') names.
Proof.
  intros Hrun. pose proof Hrun as Hkeep.
  apply run_locals_after_update in Hkeep as (u & s1 & Hupd & _ & _ & Hatr & _).
  apply update_attacks_list_Ok in Hupd as (_ & _ & _ & _ & Hself & _).
  apply run_locals_events in Hrun
    as (l0 & v' & Hl0 & Hv' & (names & Hnames & Hall) & _).
  exists l0, v', names. split_and!; [congruence | done..].
Qed.

(** X10. With [plus] cleared and a list without repetitions, a run that
    returns has called neither targeted attack, whether or not the list
    named them on entry. *)
Theorem run_without_plus_calls_no_targeted_attack x_orig y_orig bs
    (l : locals) s s' l0 v :
  plus (self s) = false →
  attacks_to_run (self s) = Some l0 →
  heap s !! l0 = Some v →
  NoDup v →
  run_locals' x_orig y_orig bs s = Ok (l, s') →
  ∃ names,
    perturb_names (out s') = perturb_names (out s) ++ names ∧
    ("apgd-t" ∉ names) ∧ ("fab-t" ∉ names).
Proof.
  intros Hplus Hl0 Hv Hnd Hrun. pose proof Hrun as Hkeep.
  apply run_locals_after_update in Hkeep
    as (u & s1 & Hupd & _ & _ & _ & Hh & _).
  apply (update_on_entry_reconciles _ _ _ _ _ Hl0 Hv Hnd) in Hupd
    as (w & Hw & Hneither).
  rewrite Hplus in Hneither. destruct Hneither as [Ha Hf].
  apply run_locals_events in Hrun
    as (l1 & v' & Hl1 & Hv' & (names & Hnames & Hall) & _).
  assert (l1 = l0) as -> by congruence.
  assert (v' = w) as -> by (rewrite Hh in Hv'; congruence).
  exists names. split; [done|].
  split; intros Hin; [apply Ha | apply Hf];
    by apply (proj1 (Forall_forall _ _) Hall).
Qed.

(** ** Degenerate inputs *)

Lemma contains_run x l v s :
  heap s !! l = Some v →
  contains x (Some l) s = Ok (bool_decide (x ∈ v), s).
Proof. intros Hv. unfold contains, bind, deref. by rewrite Hv. Qed.

Lemma remove_if_present_run x l v s :
  heap s !! l = Some v →
  ∃ s', (let* b := contains x (Some l) in when b (list_remove (Some l) x)) s
        = Ok ((), s') ∧
        self s' = self s ∧ is_Some (heap s' !! l).
Proof.
  intros Hv. rewrite (bind_step _ _ _ _ _ (contains_run x l v s Hv)).
  case_bool_decide as Hx; simpl; [|by eauto].
  unfold list_remove, bind, deref. rewrite Hv.
  destruct (remove_first_Some x v Hx) as [v' ->].
  eexists. split; [reflexivity|]. simpl. by rewrite lookup_insert_eq.
Qed.

Lemma extend_if_absent_run x l v s :
  heap s !! l = Some v →
  ∃ s', (let* b := contains x (Some l) in
         when (negb b) (list_extend (Some l) [x])) s = Ok ((), s') ∧
        self s' = self s ∧ is_Some (heap s' !! l).
Proof.
  intros Hv. rewrite (bind_step _ _ _ _ _ (contains_run x l v s Hv)).
  case_bool_decide as Hx; simpl; [by eauto|].
  unfold list_extend, bind, deref. rewrite Hv.
  eexists. split; [reflexivity|]. simpl. by rewrite lookup_insert_eq.
Qed.

(** On an object whose [attacks_to_run] is a list, the update on entry
    returns. *)
Lemma update_attacks_list_returns s l v :
  attacks_to_run (self s) = Some l →
  heap s !! l = Some v →
  ∃ s', update_attacks_list s = Ok ((), s').
Proof.
  intros Hl Hv. unfold update_attacks_list.
  rewrite (bind_step _ _ _ (self s) s) by done. rewrite Hl.
  destruct (plus (self s)).
  - destruct (extend_if_absent_run "apgd-t" l v s Hv)
      as (s1 & H1 & _ & [v1 Hv1]).
    destruct (extend_if_absent_run "fab-t" l v1 s1 Hv1) as (s2 & H2 & _).
    exists s2. by rewrite (bind_step _ _ _ _ _ H1).
  - destruct (remove_if_present_run "apgd-t" l v s Hv)
      as (s1 & H1 & _ & [v1 Hv1]).
    destruct (remove_if_present_run "fab-t" l v1 s1 Hv1) as (s2 & H2 & _).
    exists s2. by rewrite (bind_step _ _ _ _ _ H1).
Qed.

(** X11. [run_standard_evaluation] on no sample at all, or with a batch
    size of zero, raises [ZeroDivisionError] (lines 84 and 96), on any
    object whose [attacks_to_run] is a list. *)
Theorem run_on_nothing_raises_zero_division x_orig y_orig bs s l v :
  attacks_to_run (self s) = Some l →
  heap s !! l = Some v →
  x_orig = [] ∨ bs = 0 →
  run_standard_evaluation sample_shape stack flat_view model model_predict
    argmax wall_clock apgd_perturb fab_perturb square_perturb
    apgd_targeted_perturb x_orig y_orig bs s
  = Raise ZeroDivisionError.
Proof.
  intros Hl Hv Hdeg.
  destruct (update_attacks_list_returns s l v Hl Hv) as [s1 Hupd].
  unfold run_standard_evaluation, run_standard_evaluation_locals,
    evaluation_stages, evaluation_entry.
  do 3 apply bind_raise. rewrite (bind_step _ _ _ _ _ Hupd).
  unfold ceil_div. destruct (Nat.eqb_spec bs 0) as [|Hbs]; [done|].
  destruct Hdeg as [->|]; [|done]. simpl.
  rewrite Nat.div_small by lia. reflexivity.
Qed.

(** ** Switching [plus] on and off *)

Lemma remove_first_app x v w :
  x ∉ v → remove_first x (v ++ x :: w) = Some (v ++ w).
Proof.
  induction v as [|y v IH]; simpl; intros Hx.
  - by rewrite String.eqb_refl.
  - apply not_elem_of_cons in Hx as [Hne Hx].
    destruct (String.eqb_spec x y); [done|]. by rewrite IH.
Qed.

Lemma pruned_extended v :
  "apgd-t" ∉ v → "fab-t" ∉ v → pruned (extended v) = v.
Proof.
  intros Ha Hf. unfold extended.
  rewrite (bool_decide_eq_false_2 _ Ha). cbv zeta.
  rewrite bool_decide_eq_false_2.
  2:{ intros Hin. apply elem_of_app in Hin as [Hin|Hin]; [done|].
      by apply list_elem_of_singleton in Hin. }
  unfold pruned. cbv zeta. rewrite <- app_assoc. simpl.
  rewrite (remove_first_app "apgd-t" v ["fab-t"] Ha). simpl.
  rewrite (remove_first_app "fab-t" v [] Hf). simpl. apply app_nil_r.
Qed.

(** X12. Setting [plus] for one run and clearing it for the next brings
    the list back: on a list that names neither targeted attack, the
    update on entry with [plus] set followed by the update on entry with
    [plus] cleared leaves the list as it was. *)
Theorem plus_on_then_off_restores_the_list s u1 s1 u2 s2 l v :
  attacks_to_run (self s) = Some l →
  heap s !! l = Some v →
  "apgd-t" ∉ v →
  "fab-t" ∉ v →
  plus (self s) = true →
  update_attacks_list s = Ok (u1, s1) →
  update_attacks_list
    (mkState (set_plus false (self s1)) (heap s1) (ticks s1) (out s1))
  = Ok (u2, s2) →
  heap s2 !! l = Some v.
Proof.
  intros Hl Hv Ha Hf Hplus H1 H2.
  apply update_attacks_list_Ok in H1 as (l1 & v1 & Hl1 & Hv1 & Hself1 & Hh1).
  assert (l1 = l) as -> by congruence. assert (v1 = v) as -> by congruence.
  rewrite Hplus in Hh1.
  apply update_attacks_list_Ok in H2 as (l2 & v2 & Hl2 & Hv2 & _ & Hh2).
  simpl in Hl2, Hv2, Hh2. rewrite Hself1, Hl in Hl2.
  assert (l2 = l) as -> by congruence.
  assert (v2 = extended v) as -> by congruence.
  by rewrite Hh2, pruned_extended.
Qed.

(** ** The value of [clean_accuracy] *)

Lemma num_true_app a b : num_true (a ++ b) = num_true a + num_true b.
Proof. unfold num_true. by rewrite filter_app, length_app. Qed.

Lemma slice_slice {A} (l : list A) a b c :
  a ≤ b → b ≤ c → slice l a b ++ slice l b c = slice l a c.
Proof.
  intros Hab Hbc. unfold slice.
  replace (drop b l) with (drop (b - a) (drop a l))
    by (rewrite drop_drop; f_equal; lia).
  rewrite take_take_drop. f_equal. lia.
Qed.

(** Whole numbers up to [2 ^ 24] are float32 numbers. *)
Lemma float32_exact n : (Z.of_nat n ≤ 2 ^ 24)%Z → float32 n = n.
Proof.
  intros Hn. unfold float32.
  destruct (N.ltb_spec (N.log2 (N.of_nat n)) 24) as [|Hlog]; [done|].
  assert (N.of_nat n = 16777216%N) as Hm.
  { destruct (N.eq_0_gt_0_cases (N.of_nat n)) as [H0|Hpos].
    - rewrite H0 in Hlog. simpl in Hlog. lia.
    - assert (¬ (N.of_nat n < 2 ^ 24)%N) as Hge.
      { intros Hlt. apply (N.log2_lt_pow2 _ _ Hpos) in Hlt. lia. }
      lia. }
  rewrite Hm. transitivity (N.to_nat 16777216%N).
  - f_equal; vm_compute; reflexivity.
  - rewrite <- Hm. apply Nat2N.id.
Qed.

Lemma num_true_le_length (l : list bool) : num_true l ≤ length l.
Proof. unfold num_true. apply length_filter. Qed.

Lemma acc_add_exact acc (hits : list bool) :
  (Z.of_nat (acc_value acc + num_true hits) ≤ 2 ^ 24)%Z →
  acc_add acc (float_sum hits) = Tensor (acc_value acc + num_true hits).
Proof.
  intros Hn. unfold float_sum. rewrite (float32_exact (num_true hits)) by lia.
  destruct acc; simpl in *; by rewrite float32_exact.
Qed.

Lemma get_logits_run (x : list Sample) s :
  ∃ o, get_logits model model_predict x s = Ok (o, s) ∧
       map argmax o = predicted' (self s) x.
Proof.
  unfold get_logits, predicted, bind, get_self.
  destruct (negb (is_tf_model (self s))); by eexists.
Qed.

Lemma clean_batch_run x_orig y_orig bs k acc s :
  length y_orig = length x_orig →
  (k + 1) * bs ≤ length x_orig →
  clean_batch model model_predict argmax x_orig y_orig bs k acc s
  = Ok (acc_add acc
          (float_sum (slice (zip_with Nat.eqb (predicted' (self s) x_orig)
                               y_orig)
                        (k * bs) ((k + 1) * bs))), s).
Proof.
  intros Hy Hk. unfold clean_batch.
  rewrite Nat.min_l by done.
  destruct (get_logits_run (slice x_orig (k * bs) ((k + 1) * bs)) s)
    as (o & Ho & Hpred).
  rewrite (bind_step _ _ _ _ _ Ho). rewrite Hpred, predicted_slice.
  unfold tensor_eq. rewrite (proj2 (Nat.eqb_eq _ _)).
  - simpl. by rewrite zip_with_slice.
  - unfold slice. rewrite !length_take, !length_drop, predicted_length. lia.
Qed.

(** As long as the count stays within the whole numbers of float32, the
    loop of [clean_accuracy] adds up the hits of the batches it visits. *)
Lemma clean_loop_run x_orig y_orig bs s :
  length y_orig = length x_orig →
  ∀ m k acc,
    (k + S m) * bs ≤ length x_orig →
    (Z.of_nat
       (acc_value acc
        + num_true (slice (zip_with Nat.eqb (predicted' (self s) x_orig)
                             y_orig)
                      (k * bs) ((k + S m) * bs))) ≤ 2 ^ 24)%Z →
    for_each (seq k (S m))
      (clean_batch model model_predict argmax x_orig y_orig bs) acc s
    = Ok (Tensor
            (acc_value acc
             + num_true (slice (zip_with Nat.eqb (predicted' (self s) x_orig)
                                  y_orig)
                           (k * bs) ((k + S m) * bs))), s).
Proof.
  intros Hy. induction m as [|m IH]; intros k acc Hk Hfit.
  - assert ((k + 1) * bs ≤ length x_orig) as Hk1 by lia. simpl.
    rewrite (bind_step _ _ _ _ _
               (clean_batch_run x_orig y_orig bs k acc s Hy Hk1)).
    replace (k + 1) with (S k) in * by lia.
    by rewrite acc_add_exact.
  - assert ((k + 1) * bs ≤ length x_orig) as Hk1 by nia.
    rewrite <- (slice_slice _ (k * bs) (S k * bs) ((k + S (S m)) * bs)) in *
      by nia.
    rewrite num_true_app in *.
    change (seq k (S (S m))) with (k :: seq (S k) (S m)).
    cbn [for_each].
    rewrite (bind_step _ _ _ _ _
               (clean_batch_run x_orig y_orig bs k acc s Hy Hk1)).
    replace ((k + 1) * bs) with (S k * bs) by lia.
    rewrite acc_add_exact by lia.
    replace ((k + S (S m)) * bs) with ((S k + S m) * bs) in * by lia.
    rewrite IH; [|lia|cbn [acc_value]; lia]. cbn [acc_value].
    do 3 f_equal. lia.
Qed.

(** X13. On well-formed input with [0 < bs <= N] and at most [2 ^ 24]
    samples (the whole numbers a float32 accumulator holds exactly),
    [clean_accuracy] returns; its value is the number of correctly
    classified samples among the first [(N // bs) * bs], over [N]: all
    samples are counted exactly when [bs] divides [N].  The object and the
    store are untouched; one line is printed when [verbose] is set. *)
Theorem clean_accuracy_is_share_among_whole_batches x_orig y_orig bs s :
  length y_orig = length x_orig →
  0 < bs →
  bs ≤ length x_orig →
  (Z.of_nat (length x_orig) ≤ 2 ^ 24)%Z →
  let hits := zip_with Nat.eqb (predicted' (self s) x_orig) y_orig in
  let q := (Z.of_nat (num_true (take (length x_orig / bs * bs) hits))
            # Pos.of_nat (length x_orig))%Q in
  clean_accuracy' x_orig y_orig bs s
  = Ok (q, if verbose (self s)
           then mkState (self s) (heap s) (ticks s)
                  (out s ++ [Print (MsgCleanAccuracy q)])
           else s).
Proof.
  intros Hy Hbs Hle Hfit hits q. unfold clean_accuracy, floor_div.
  destruct (Nat.eqb_spec bs 0) as [|_]; [lia|].
  destruct (length x_orig / bs) as [|m] eqn:Hdiv.
  { apply Nat.div_small_iff in Hdiv; lia. }
  pose proof (Nat.Div0.mul_div_le (length x_orig) bs) as Hmul.
  rewrite Hdiv in Hmul.
  rewrite (bind_step _ _ _ (S m) s) by done.
  assert ((0 + S m) * bs ≤ length x_orig) as Hall by lia.
  assert (Z.of_nat
            (acc_value (PyFloat 0)
             + num_true (slice hits (0 * bs) ((0 + S m) * bs))) ≤ 2 ^ 24)%Z
    as Hsum.
  { pose proof (num_true_le_length (slice hits (0 * bs) ((0 + S m) * bs))).
    assert (length (slice hits (0 * bs) ((0 + S m) * bs)) ≤ length x_orig).
    { unfold slice. rewrite length_take, length_drop. unfold hits.
      rewrite length_zip_with, predicted_length. lia. }
    simpl acc_value. lia. }
  rewrite (bind_step _ _ _ _ _
             (clean_loop_run x_orig y_orig bs s Hy m 0 (PyFloat 0) Hall Hsum)).
  rewrite (bind_step _ _ _ (self s) s) by done.
  simpl acc_value. unfold slice. rewrite drop_0, Nat.sub_0_r. fold hits.
  assert ((length x_orig =? 0) = false) as HN by (apply Nat.eqb_neq; lia).
  subst q.
  destruct (verbose (self s));
    unfold bind, lift, when, print, emit, ret, acc_div, acc_item, py_div;
    cbn [acc_div acc_item]; by rewrite ?HN.
Qed.

(** ** The individual run *)

(** A run that returns, read back as far as its loop over the attacks: the
    update on entry has left a list [v'], and the loop over [v'] started
    from [x_orig] gives the local variables of the [return]. *)
Lemma run_locals_plan x_orig y_orig bs (l : locals) s s' l0 :
  attacks_to_run (self s) = Some l0 →
  run_locals' x_orig y_orig bs s = Ok (l, s') →
  ∃ s1 v' flags acc startt sa sb,
    update_attacks_list s = Ok ((), s1) ∧
    heap s1 !! l0 = Some v' ∧
    stage_loop' x_orig y_orig bs startt v' (mkLocals flags x_orig acc) sa
    = Ok (l, sb).
Proof.
  intros Hl0 Hrun.
  apply run_locals_Ok in Hrun as (s3 & Hstages & _).
  apply evaluation_stages_Ok in Hstages
    as ([startt en] & s0 & attacks & Hentry & Hderef & Hloop).
  apply evaluation_entry_Ok in Hentry
    as (s1 & n & Hupd & _ & _ & _ & Hadv & Hself0 & Hheap0 & _).
  pose proof (update_attacks_list_Ok _ _ _ Hupd)
    as (l1 & v & Hl1 & _ & Hself & Hheap).
  assert (l1 = l0) as -> by congruence.
  rewrite Hself0, Hself, Hl0 in Hderef. apply deref_Ok in Hderef as [Hlist _].
  rewrite Hheap0 in Hlist.
  destruct en as [flags xa acc]. simpl in *. subst xa.
  exists s1, attacks, flags, acc, startt, s0, s3. by split_and!.
Qed.

Lemma individual_step_entry x_orig y_orig bs verbose_indiv c adv s adv' s' :
  individual_step' x_orig y_orig bs verbose_indiv c adv s = Ok (adv', s') →
  ∃ r, adv' = <[c:=r]> adv.
Proof. unfold individual_step. intros Hrun. inv_run. eauto. Qed.

Lemma clean_accuracy_names x_orig y_orig bs s q s' :
  clean_accuracy' x_orig y_orig bs s = Ok (q, s') →
  perturb_names (out s') = perturb_names (out s).
Proof.
  unfold clean_accuracy. intros Hrun. inv_run.
  match goal with
  | H : for_each _ _ _ _ = Ok (_, ?s1) |- _ =>
      apply (for_each_invariant (λ _ s1, s1 = s)) in H; [subst s1| |done]
  end.
  - match goal with
    | H : when _ _ _ = Ok _ |- _ => apply when_Ok in H as [[_ H]|[_ ->]]
    end; [|done].
    inv_run. inv_state. simpl. apply names_snoc_print.
  - intros x b sa b' sb Hb ->. unfold clean_batch in Hb.
    inv_run. by inv_state.
Qed.

(** One turn of the loop of the individual run, entered with [plus]
    cleared: the calls it makes are for names of the pruned one-name list,
    and when that list is empty the entry is the input itself. *)
Lemma individual_step_calls x_orig y_orig bs verbose_indiv c adv s adv' s' :
  individual_step' x_orig y_orig bs verbose_indiv c adv s = Ok (adv', s') →
  plus (self s) = false →
  (∃ names, perturb_names (out s') = perturb_names (out s) ++ names ∧
            Forall (λ a, a ∈ pruned [c]) names) ∧
  (pruned [c] = [] → adv' = <[c:=x_orig]> adv).
Proof.
  unfold individual_step, run_standard_evaluation. intros Hrun Hplus.
  inv_run. inv_state.
  match goal with H : alloc _ _ = Ok _ |- _ => apply alloc_Ok in H as -> end.
  match goal with
  | H : run_locals' _ _ _ ?s0 = Ok _ |- _ =>
      pose proof (run_locals_events _ _ _ _ _ _ H)
        as (l0 & w & Hl0 & Hw & (names & Hnames & Hall) & _);
      pose proof H as Hafter;
      apply run_locals_after_update in Hafter
        as (u & s1 & Hupd & _ & _ & _ & Hh & _);
      apply (run_locals_plan _ _ _ _ _ _ _ Hl0) in H
        as (s2 & v' & flags & acc & startt & sa & sb & Hupd' & Hv' & Hloop)
  end.
  assert (s2 = s1) as -> by congruence.
  apply update_attacks_list_Ok in Hupd as (l1 & v & Hl1 & Hv & _ & Hheap).
  simpl in Hl0, Hl1, Hv, Hheap. assert (l1 = l0) as -> by congruence.
  injection Hl0 as <-. rewrite lookup_insert_eq in Hv. injection Hv as <-.
  rewrite Hplus in Hheap.
  assert (v' = pruned [c]) as -> by congruence.
  assert (w = pruned [c]) as -> by (rewrite Hh in Hw; congruence).
  split.
  - exists names. split; [|done]. simpl in Hnames. rewrite <- Hnames.
    match goal with
    | H : (if verbose_indiv then _ else _) _ = Ok _ |- _ =>
        destruct verbose_indiv;
          [inv_run; inv_state;
           match goal with
           | Hc : clean_accuracy' _ _ _ _ = Ok _ |- _ =>
               apply clean_accuracy_names in Hc
           end;
           simpl; by rewrite names_snoc_print
          |by apply ret_Ok in H as [_ ->]]
    end.
  - intros Hnil. rewrite Hnil in Hloop. simpl in Hloop.
    by apply ret_Ok in Hloop as [-> _].
Qed.

Lemma pruned_targeted c : c = "apgd-t" ∨ c = "fab-t" → pruned [c] = [].
Proof. by intros [->| ->]. Qed.

Lemma pruned_singleton_untargeted c a :
  a ∈ pruned [c] → a ≠ "apgd-t" ∧ a ≠ "fab-t".
Proof.
  intros Hin.
  destruct (pruned_has_neither [c]) as [Ha Hf]; [apply NoDup_singleton|].
  split; by intros ->.
Qed.

(** X14. The individual run never runs a targeted attack.  It clears
    [plus] before its loop, so the run of the one-name list ['apgd-t'] or
    ['fab-t'] removes the name on entry and attacks nothing: when the
    individual run returns, no call of [perturb] was made under either
    name, and an entry of the result under either name is the unperturbed
    input. *)
Theorem individual_run_never_runs_targeted_attacks x_orig y_orig bs s adv s' :
  run_individual' x_orig y_orig bs s = Ok (adv, s') →
  (∃ names, perturb_names (out s') = perturb_names (out s) ++ names ∧
            ("apgd-t" ∉ names) ∧ ("fab-t" ∉ names)) ∧
  ∀ c r, c = "apgd-t" ∨ c = "fab-t" → adv !! c = Some r → r = x_orig.
Proof.
  unfold run_standard_evaluation_individual. intros Hrun.
  apply bind_Ok in Hrun as (u & s1 & Hext & Hrun).
  assert (out s1 = out s) as Hout.
  { unfold extend_attacks_list in Hext.
    apply bind_Ok in Hext as (a & s0 & Hget & Hext).
    apply get_self_Ok in Hget as [-> ->].
    destruct (plus (self s)); [|by apply ret_Ok in Hext as [_ ->]].
    apply bind_Ok in Hext as (u1 & t1 & H1 & H2).
    apply bind_Ok in H1 as (b1 & t2 & Hc1 & Hw1).
    apply bind_Ok in H2 as (b2 & t3 & Hc2 & Hw2).
    apply contains_state in Hc1 as ->. apply contains_state in Hc2 as ->.
    apply when_Ok in Hw1 as [[_ Hw1]|[_ ->]];
      apply when_Ok in Hw2 as [[_ Hw2]|[_ ->]];
      repeat match goal with
        | H : list_extend _ _ _ = Ok _ |- _ => apply list_extend_out in H
        end;
      congruence. }
  inv_run. inv_state.
  match goal with
  | H : deref _ _ = Ok (_, ?s2) |- _ => apply deref_state in H; subst s2
  end.
  match goal with
  | H : for_each _ _ _ _ = Ok _ |- _ =>
      apply (for_each_invariant
               (λ b sa,
                  plus (self sa) = false ∧
                  (∃ names,
                     perturb_names (out sa) = perturb_names (out s) ++ names ∧
                     ("apgd-t" ∉ names) ∧ ("fab-t" ∉ names)) ∧
                  ∀ c r, c = "apgd-t" ∨ c = "fab-t" →
                         b !! c = Some r → r = x_orig)) in H
  end.
  - match goal with H : _ ∧ _ |- _ => by destruct H as (_ & ? & ?) end.
  - intros c0 b sa b' sb Hstep (Hplus & (names & Hnames & Ha & Hf) & Hent).
    pose proof Hstep as Hcfg.
    apply individual_step_config in Hcfg as (Hplus' & _); [|done].
    pose proof Hstep as Hcalls.
    apply individual_step_calls in Hcalls
      as [(new & Hnew & Hall) Hempty]; [|done].
    split_and!; [done| |].
    + exists (names ++ new). split; [by rewrite Hnew, Hnames, app_assoc|].
      split; intros Hin; apply elem_of_app in Hin as [Hin|Hin];
        try done;
        apply (proj1 (Forall_forall _ _) Hall), pruned_singleton_untargeted
          in Hin; by destruct Hin.
    + intros c r Hc Hr. destruct (decide (c0 = c)) as [->|Hne].
      * rewrite (Hempty (pruned_targeted c Hc)), lookup_insert_eq in Hr.
        by injection Hr as <-.
      * apply individual_step_entry in Hstep as [r0 ->].
        rewrite lookup_insert_ne in Hr by done. by eapply Hent.
  - simpl. split_and!; [done| |].
    + exists []. rewrite app_nil_r, Hout. split_and!; [done|..];
        apply not_elem_of_nil.
    + intros c r _ Hr. by rewrite lookup_empty in Hr.
Qed.

Lemma individual_loop_keys x_orig y_orig bs verbose_indiv cs :
  ∀ adv s adv' s',
    for_each cs (individual_step' x_orig y_orig bs verbose_indiv) adv s
    = Ok (adv', s') →
    ∀ c, is_Some (adv' !! c) ↔ c ∈ cs ∨ is_Some (adv !! c).
Proof.
  induction cs as [|c0 rest IH]; simpl; intros adv s adv' s' Hrun c.
  - apply ret_Ok in Hrun as [-> ->]. split; [by right|].
    by intros [Hin%elem_of_nil|].
  - apply bind_Ok in Hrun as (adv1 & s1 & Hstep & Hrun).
    apply individual_step_entry in Hstep as [r ->].
    rewrite (IH _ _ _ _ Hrun c), elem_of_cons.
    destruct (decide (c0 = c)) as [->|Hne].
    + rewrite lookup_insert_eq. split; [by left; left|]. intros _. by right.
    + rewrite lookup_insert_ne by done. split.
      * intros [?|?]; [left; by right | by right].
      * intros [[?|?]|?]; [congruence | by left | by right].
Qed.

(** X15. The result of the individual run has exactly one entry per name
    of the list it was asked to run: the configured list, with the two
    targeted attacks appended when [plus] was set on entry. *)
Theorem individual_run_has_one_entry_per_attack x_orig y_orig bs s adv s'
    l0 v c :
  attacks_to_run (self s) = Some l0 →
  heap s !! l0 = Some v →
  run_individual' x_orig y_orig bs s = Ok (adv, s') →
  is_Some (adv !! c) ↔ c ∈ (if plus (self s) then extended v else v).
Proof.
  intros Hl0 Hv Hrun. unfold run_standard_evaluation_individual in Hrun.
  apply bind_Ok in Hrun as (u & s1 & Hext & Hrun).
  apply (extend_attacks_list_extended _ _ _ _ _ Hl0 Hv) in Hext
    as [Hself Hheap].
  inv_run. inv_state.
  match goal with
  | H : deref _ _ = Ok _ |- _ =>
      rewrite Hself, Hl0 in H; apply deref_Ok in H as [Hcs ->]
  end.
  simpl in Hcs. rewrite Hheap in Hcs. injection Hcs as <-.
  match goal with
  | H : for_each _ _ _ _ = Ok _ |- _ =>
      rewrite (individual_loop_keys _ _ _ _ _ _ _ _ _ H c)
  end.
  rewrite lookup_empty. split; [|by left].
  intros [?|[? ?]]; [done | discriminate].
Qed.

(** ** Objects that share a list *)

Lemma init_without_plus norm eps seed verbose l tf device h a h' :
  __init__ norm eps seed verbose l false tf device h = Ok (a, h') →
  attacks_to_run a = Some l ∧ h' = h ∧ plus a = false.
Proof.
  unfold __init__, init_attacks_to_run.
  destruct (negb (bool_decide (norm ∈ ["Linf"; "L2"]))); [done|]. simpl.
  by intros [= <- <-].
Qed.

(** X16. The list given to the constructor (or the default list, which
    all calls share) is not copied: when two objects are built without
    [plus] from the same list and [plus] is then set on the first, the
    update on entry of a run of the first extends the list the second
    holds as well. *)
Theorem objects_share_the_attack_list n1 e1 sd1 vb1 tf1 d1 n2 e2 sd2 vb2 tf2
    d2 l h a1 h1 a2 h2 v t o u s' :
  __init__ n1 e1 sd1 vb1 l false tf1 d1 h = Ok (a1, h1) →
  __init__ n2 e2 sd2 vb2 l false tf2 d2 h1 = Ok (a2, h2) →
  h !! l = Some v →
  update_attacks_list (mkState (set_plus true a1) h2 t o) = Ok (u, s') →
  ∃ l2, attacks_to_run a2 = Some l2 ∧ heap s' !! l2 = Some (extended v).
Proof.
  intros H1 H2 Hv Hrun.
  apply init_without_plus in H1 as (Hl1 & -> & _).
  apply init_without_plus in H2 as (Hl2 & -> & _).
  apply update_attacks_list_Ok in Hrun as (l0 & v0 & Hl0 & Hv0 & _ & Hheap).
  simpl in Hl0, Hv0, Hheap. rewrite Hl1 in Hl0. injection Hl0 as <-.
  assert (v0 = v) as -> by congruence. eauto.
Qed.

(** ** A run on well-formed input returns *)





















(** ** An unknown attack, an unknown norm *)


(** One batch of an attack the dispatch does not know raises: at the
    dispatch, or just before it when there are fewer labels than
    samples. *)
Lemma attack_batch_unknown x_orig y_orig bs num_robust n_batches attack idcs
    batch_idx (l : locals) s :
  attack ∉ known_attacks →
  sample_shape ≠ [] →
  ishape idcs ≠ [] →
  (∀ i, i ∈ ivals idcs → i < length x_orig) →
  ∃ e, attack_batch' x_orig y_orig bs num_robust n_batches attack idcs
         batch_idx l s = Raise e ∧
       (e = ValueError "Attack not supported" ∨
        (length y_orig < length x_orig ∧ e = IndexError)).
Proof.
  intros Hunknown Hshape Hidcs Hrange.
  destruct (idx_slice_Ok idcs (batch_idx * bs)
              (((batch_idx + 1) * bs) `min` num_robust) Hidcs)
    as (cut & Hcut & Hsub).
  assert (second_axis sample_shape = Ok ()) as Haxis
    by (unfold second_axis; by destruct sample_shape).
  destruct (gather_in_range x_orig (ivals cut)) as [x Hgx].
  { intros i Hi. by apply Hrange, Hsub. }
  destruct (gather y_orig (ivals cut)) as [y|e] eqn:Hgy.
  - exists (ValueError "Attack not supported"). split; [|by left].
    unfold attack_batch.
    rewrite (bind_step _ _ _ _ _ (lift_run _ _ s Hcut)).
    rewrite (bind_step _ _ _ _ _ (lift_run _ _ s Haxis)).
    rewrite (bind_step _ _ _ _ _ (lift_run _ _ s Hgx)).
    rewrite (bind_step _ _ _ _ _ (lift_run _ _ s Hgy)).
    apply bind_raise. by apply run_attack_unknown.
  - exists e. split.
    + unfold attack_batch.
      rewrite (bind_step _ _ _ _ _ (lift_run _ _ s Hcut)).
      rewrite (bind_step _ _ _ _ _ (lift_run _ _ s Haxis)).
      rewrite (bind_step _ _ _ _ _ (lift_run _ _ s Hgx)).
      apply bind_raise. unfold lift. by rewrite Hgy.
    + right. split.
      * destruct (decide (length x_orig ≤ length y_orig)) as [Hle|]; [|lia].
        destruct (gather_in_range y_orig (ivals cut)) as [y Hy]; [|congruence].
        intros i Hi. apply Hsub, Hrange in Hi. lia.
      * unfold gather in Hgy.
        destruct (mapM (λ i, y_orig !! i) (ivals cut)); [done|].
        by injection Hgy as <-.
Qed.

Lemma run_stage_unknown_raises x_orig y_orig bs startt attack (l : locals) s :
  attack ∉ known_attacks →
  0 < bs → sample_shape ≠ [] →
  num_true (robust_flags l) ≠ 0 →
  length (robust_flags l) ≤ length x_orig →
  ∃ e, run_stage' x_orig y_orig bs startt attack l s = Raise e ∧
       (e = ValueError "Attack not supported" ∨
        (length y_orig < length x_orig ∧ e = IndexError)).
Proof.
  intros Hunknown Hbs Hshape Hn Hx.
  destruct (ceil_div_pos (num_true (robust_flags l)) bs Hbs Hn) as [k Hk].
  destruct (attack_batch_unknown x_orig y_orig bs (num_true (robust_flags l))
              (S k) attack
              (if 1 <? num_true (robust_flags l)
               then squeeze_ (nonzero (robust_flags l))
               else nonzero (robust_flags l)) 0 l s Hunknown Hshape)
    as (e & He & Hcase).
  { apply robust_lin_idcs_shape. }
  { intros i Hi. rewrite robust_lin_idcs_vals in Hi.
    apply nonzero_from_bound in Hi. lia. }
  exists e. split; [|done]. unfold run_stage.
  rewrite (bind_step _ _ _ _ _ (lift_run _ _ s Hk)).
  apply bind_raise. simpl. by apply bind_raise.
Qed.

(** A stage of an attack the dispatch does not know does not return when
    a sample is still robust. *)
Lemma run_stage_unknown_stops x_orig y_orig bs startt attack (l l' : locals)
    s s' :
  attack ∉ known_attacks →
  run_stage' x_orig y_orig bs startt attack l s = Ok (l', s') →
  num_true (robust_flags l) = 0.
Proof.
  intros Hunknown Hrun. unfold run_stage in Hrun.
  apply bind_Ok in Hrun as (n & s1 & Hn & Hrun).
  apply lift_Ok in Hn as [Hn ->].
  apply ceil_div_bounds in Hn as (Hbs & Hup & _).
  destruct n as [|n]; [lia|].
  apply bind_Ok in Hrun as (l1 & s1 & Hloop & _). simpl in Hloop.
  apply bind_Ok in Hloop as (l2 & s2 & Hbatch & _).
  unfold attack_batch in Hbatch. inv_run.
  match goal with
  | H : run_attack' _ _ _ _ _ = Ok _ |- _ =>
      by rewrite run_attack_unknown in H
  end.
Qed.

Lemma stage_loop_unknown_stops x_orig y_orig bs startt bad attacks :
  bad ∉ known_attacks →
  bad ∈ attacks →
  ∀ (l l' : locals) s s',
    stage_loop' x_orig y_orig bs startt attacks l s = Ok (l', s') →
    num_true (robust_flags l') = 0.
Proof.
  intros Hunknown. induction attacks as [|attack rest IH]; intros Hin.
  { by apply elem_of_nil in Hin. }
  intros l l' s s' Hrun. simpl in Hrun.
  destruct (Nat.eqb_spec (num_true (robust_flags l)) 0) as [H0|Hn].
  { by apply ret_Ok in Hrun as [-> ->]. }
  apply bind_Ok in Hrun as (l1 & s1 & H1 & Hrun).
  apply elem_of_cons in Hin as [<-|Hin].
  - by apply run_stage_unknown_stops in H1.
  - by eapply IH.
Qed.

(** The update on entry removes no name but the two targeted ones. *)
Lemma default_remove_first_other x y v :
  x ≠ y → x ∈ v → x ∈ default v (remove_first y v).
Proof.
  intros Hne Hx. destruct (remove_first y v) as [v'|] eqn:Hrm; [|done].
  simpl. apply remove_first_split in Hrm as (v1 & v2 & -> & ->).
  apply elem_of_app in Hx as [Hx|Hx]; apply elem_of_app; [by left|].
  apply elem_of_cons in Hx as [?|Hx]; [done | by right].
Qed.

Lemma unknown_stays_listed bad v (plus : bool) :
  bad ∉ known_attacks →
  bad ∈ v →
  bad ∈ (if plus then extended v else pruned v).
Proof.
  intros Hunknown Hin.
  assert (bad ≠ "apgd-t" ∧ bad ≠ "fab-t") as [Ha Hf].
  { split; intros ->; apply Hunknown; unfold known_attacks;
      repeat constructor. }
  destruct plus.
  - unfold extended. cbv zeta.
    repeat case_bool_decide; repeat (apply elem_of_app; left); done.
  - unfold pruned. cbv zeta.
    apply default_remove_first_other; [done|].
    by apply default_remove_first_other.
Qed.

(** C8. An attack name the dispatch does not know is never skipped.  Let
    the list that the update on entry leaves in [attacks_to_run] be
    [pre ++ bad :: post].  When the entry of the run returns and the
    stages [pre] return with a sample still robust, so that the stage of
    [bad] is reached with a non-empty active set, then
    [run_standard_evaluation] raises [ValueError('Attack not supported')]
    at the dispatch of line 164 (or, with fewer labels than samples,
    possibly [IndexError] at line 122 of that same stage, two statements
    earlier).  Whatever the input, a run whose list names [bad] returns
    only when no sample is robust at its end.  And [__init__] raises
    [AssertionError] on a norm other than ['Linf'] and ['L2']. *)
Theorem unknown_attack_and_unknown_norm_raise bad :
  bad ∉ known_attacks →
  (∀ x_orig y_orig bs s startt (l0 l1 : locals) s0 s1 l pre post,
     evaluation_entry' x_orig y_orig bs s = Ok ((startt, l0), s0) →
     attacks_to_run (self s0) = Some l →
     heap s0 !! l = Some (pre ++ bad :: post) →
     stage_loop' x_orig y_orig bs startt pre l0 s0 = Ok (l1, s1) →
     num_true (robust_flags l1) ≠ 0 →
     run_standard_evaluation' x_orig y_orig bs s
     = Raise (ValueError "Attack not supported")
     ∨ (length y_orig < length x_orig ∧
        run_standard_evaluation' x_orig y_orig bs s = Raise IndexError)) ∧
  (∀ x_orig y_orig bs s (l : locals) s' l0 v,
     attacks_to_run (self s) = Some l0 →
     heap s !! l0 = Some v →
     bad ∈ v →
     run_locals' x_orig y_orig bs s = Ok (l, s') →
     num_true (robust_flags l) = 0) ∧
  (∀ norm eps seed verbose attacks plus tf device h,
     norm ∉ ["Linf"; "L2"] →
     __init__ norm eps seed verbose attacks plus tf device h
     = Raise AssertionError).
Proof.
  intros Hbad. split_and!.
  - intros x_orig y_orig bs s startt l0 l1 s0 s1 l pre post Hentry Hl Hlist
      Hpre Hn.
    pose proof Hentry as Hparts.
    apply evaluation_entry_Ok in Hparts
      as (sa & n & _ & Hceil & Hpass & Hacc & _). simpl in Hpass, Hacc.
    pose proof (accuracy_pass_length _ _ _ _ _ _ _ _ Hpass) as Hlen0.
    rewrite length_replicate in Hlen0.
    pose proof Hpre as Hlen1.
    apply stage_loop_shrinks in Hlen1 as (Hlen1 & _ & _).
    pose proof (num_true_le_length (robust_flags l1)) as Hsome.
    apply ceil_div_bounds in Hceil as (Hbs & Hup & _).
    assert (sample_shape ≠ []) as Hshape.
    { destruct n as [|n]; [lia|]. simpl in Hpass.
      apply bind_Ok in Hpass as (f1 & sb & Hb & _).
      unfold accuracy_batch in Hb.
      apply bind_Ok in Hb as (u & sc & Hax & _).
      apply lift_Ok in Hax as [Hax _]. unfold second_axis in Hax.
      by destruct sample_shape. }
    destruct (run_stage_unknown_raises x_orig y_orig bs startt bad l1 s1)
      as (e & He & Hcase); [done..|lia|].
    assert (run_standard_evaluation' x_orig y_orig bs s = Raise e) as Hrun.
    { unfold run_standard_evaluation, run_standard_evaluation_locals.
      do 2 apply bind_raise. unfold evaluation_stages.
      rewrite (bind_step _ _ _ _ _ Hentry).
      rewrite (bind_step _ _ _ (self s0) s0) by done.
      rewrite (bind_step _ _ _ (pre ++ bad :: post) s0)
        by (rewrite Hl; unfold deref; by rewrite Hlist).
      simpl. rewrite stage_loop_app, (bind_step _ _ _ _ _ Hpre). simpl.
      destruct (Nat.eqb_spec (num_true (robust_flags l1)) 0); [done|].
      by apply bind_raise. }
    destruct Hcase as [->|[Hshort ->]]; [by left | by right].
  - intros x_orig y_orig bs s l s' l0 v Hl0 Hv Hin Hrun.
    apply run_locals_Ok in Hrun as (s2 & Hstages & _).
    apply evaluation_stages_Ok in Hstages
      as (en & s0 & attacks & Hentry & Hderef & Hloop).
    apply evaluation_entry_Ok in Hentry
      as (s1 & n & Hupd & _ & _ & _ & _ & Hself0 & Hheap0 & _).
    apply update_attacks_list_Ok in Hupd
      as (l1 & v1 & Hl1 & Hv1 & Hself & Hheap).
    assert (l1 = l0) as -> by congruence. assert (v1 = v) as -> by congruence.
    rewrite Hself0, Hself, Hl0 in Hderef. apply deref_Ok in Hderef as [Hlist _].
    rewrite Hheap0, Hheap in Hlist. injection Hlist as <-.
    eapply stage_loop_unknown_stops; [exact Hbad| |exact Hloop].
    by apply unknown_stays_listed.
  - intros norm eps seed verbose attacks plus tf device h Hnorm.
    unfold __init__. by rewrite bool_decide_eq_false_2.
Qed.

(** ** Verbosity and the final check *)




(** ** What the individual run leaves behind *)


End Coverage.

(** * The further properties on concrete runs *)


(** Three samples in, three rows and three flags out. *)
Lemma run_returns_one_row_per_sample_witness :
  ∃ l s',
    Demo.evaluate [0; 1; 2] [0; 1; 5] 2 (Demo.start false false)
    = Ok (l, s') ∧
    length (x_adv l) = length [0; 1; 2] ∧
    length (robust_flags l) = length [0; 1; 2].
Proof.
  eexists _, _. split; [vm_compute; reflexivity|].
  eapply (run_returns_one_row_per_sample Demo.shape Demo.stack true
            id id id Demo.clock
            (λ _, Demo.breaks_even) (λ _, Demo.breaks_even)
            (λ _, Demo.breaks_even) (λ _, Demo.breaks_even)
            [0; 1; 2] [0; 1; 5] 2 _ (Demo.start false false)).
  vm_compute. reflexivity.
Defined.

(** Two robust samples before the stage, one after. *)
Lemma robust_count_never_grows_witness :
  ∃ l' s',
    Demo.stages [0; 1; 2] [0; 1; 5] 2 0%Z ["apgd-ce"; "fab"]
      (mkLocals [true; true; false] [0; 1; 2] (2 # 3)%Q)
      (Demo.start false false) = Ok (l', s') ∧
    num_true (robust_flags l') = 1 ∧
    num_true (robust_flags l') ≤ num_true [true; true; false].
Proof.
  eexists _, _. split; [vm_compute; reflexivity|]. split; [reflexivity|].
  eapply (robust_count_never_grows Demo.shape Demo.stack id id id Demo.clock
            (λ _, Demo.breaks_even) (λ _, Demo.breaks_even)
            (λ _, Demo.breaks_even) (λ _, Demo.breaks_even)
            [0; 1; 2] [0; 1; 5] 2 0%Z ["apgd-ce"; "fab"]
            (mkLocals [true; true; false] [0; 1; 2] (2 # 3)%Q) _
            (Demo.start false false)).
  vm_compute. reflexivity.
Defined.

(** One robust sample of three at the end: accuracy 1/3. *)
Lemma robust_accuracy_is_share_of_true_flags_witness :
  ∃ l s',
    Demo.evaluate [0; 1; 2] [0; 1; 5] 2 (Demo.start false false)
    = Ok (l, s') ∧
    length [0; 1; 2] ≠ 0 ∧
    robust_accuracy l
    = (Z.of_nat (num_true (robust_flags l)) # Pos.of_nat (length [0; 1; 2]))%Q.
Proof.
  eexists _, _. split; [vm_compute; reflexivity|].
  eapply (robust_accuracy_is_share_of_true_flags Demo.shape Demo.stack true
            id id id
            Demo.clock (λ _, Demo.breaks_even) (λ _, Demo.breaks_even)
            (λ _, Demo.breaks_even) (λ _, Demo.breaks_even)
            [0; 1; 2] [0; 1; 5] 2 _ (Demo.start false false)).
  vm_compute. reflexivity.
Defined.

(** Three samples in batches of two, the last label wrong. *)
Lemma accuracy_pass_marks_correct_samples_witness :
  ∃ flags s',
    length [0; 1; 5] = length [0; 1; 2] ∧
    ceil_div (length [0; 1; 2]) 2 = Ok 2 ∧
    Demo.accuracy_pass [0; 1; 2] [0; 1; 5] 2 2 (Demo.start false false)
    = Ok (flags, s') ∧
    s' = Demo.start false false ∧
    flags = zip_with Nat.eqb [0; 1; 5]
              (predicted id id id (self (Demo.start false false)) [0; 1; 2]).
Proof.
  eexists _, _. split; [reflexivity|]. split; [reflexivity|].
  split; [vm_compute; reflexivity|].
  apply (accuracy_pass_marks_correct_samples Demo.shape id id id
           [0; 1; 2] [0; 1; 5] 2 2);
    [reflexivity | reflexivity | vm_compute; reflexivity].
Defined.

(** Sample 2 carries label 5 and is classified as 2. *)
Lemma misclassified_samples_are_left_alone_witness :
  ∃ l s',
    length [0; 1; 5] = length [0; 1; 2] ∧
    [0; 1; 2] !! 2 = Some 2 ∧
    [0; 1; 5] !! 2 = Some 5 ∧
    predicted id id id (self (Demo.start false false)) [0; 1; 2] !! 2
    = Some 2 ∧
    5 ≠ 2 ∧
    Demo.evaluate [0; 1; 2] [0; 1; 5] 2 (Demo.start false false)
    = Ok (l, s') ∧
    robust_flags l !! 2 = Some false ∧ x_adv l !! 2 = Some 2.
Proof.
  eexists _, _. split; [reflexivity|]. split; [reflexivity|].
  split; [reflexivity|]. split; [reflexivity|]. split; [lia|].
  split; [vm_compute; reflexivity|].
  eapply (misclassified_samples_are_left_alone Demo.shape Demo.stack true
            id id id
            Demo.clock (λ _, Demo.breaks_even) (λ _, Demo.breaks_even)
            (λ _, Demo.breaks_even) (λ _, Demo.breaks_even)
            [0; 1; 2] [0; 1; 5] 2 _ (Demo.start false false) _ 2 2 5 2);
    [reflexivity | reflexivity | reflexivity | reflexivity | lia
    | vm_compute; reflexivity].
Defined.

(** Three robust samples in batches of two: two calls. *)
Lemma stage_calls_perturb_once_per_batch_witness :
  ∃ l' s',
    Demo.stage [1; 3; 5] [1; 3; 5] 2 0%Z "fab"
      (mkLocals [true; true; true] [1; 3; 5] (3 # 3)%Q)
      (Demo.start false false) = Ok (l', s') ∧
    ∃ n, ceil_div (num_true [true; true; true]) 2 = Ok n ∧
         length (perturb_shapes (out s'))
         = length (perturb_shapes (out (Demo.start false false))) + n.
Proof.
  eexists _, _. split; [vm_compute; reflexivity|].
  eapply (stage_calls_perturb_once_per_batch Demo.shape Demo.stack
            id id id Demo.clock
            (λ _, Demo.breaks_even) (λ _, Demo.breaks_even)
            (λ _, Demo.breaks_even) (λ _, Demo.breaks_even)
            [1; 3; 5] [1; 3; 5] 2 0%Z "fab"
            (mkLocals [true; true; true] [1; 3; 5] (3 # 3)%Q) _
            (Demo.start false false)).
  vm_compute. reflexivity.
Defined.

(** The same stage: a batch of two rows and a batch of one. *)
Lemma batches_of_a_stage_have_batch_rank_witness :
  ∃ l' s',
    1 < num_true [true; true; true] ∧
    length Demo.shape ≠ 2 ∧
    Demo.stage [1; 3; 5] [1; 3; 5] 2 0%Z "fab"
      (mkLocals [true; true; true] [1; 3; 5] (3 # 3)%Q)
      (Demo.start false false) = Ok (l', s') ∧
    ∃ sizes,
      perturb_shapes (out s')
      = perturb_shapes (out (Demo.start false false))
        ++ map (λ k, k :: Demo.shape) sizes ∧
      Forall (λ k, 1 ≤ k ≤ 2) sizes ∧
      sum_list sizes = num_true [true; true; true].
Proof.
  eexists _, _. split; [vm_compute; lia|]. split; [vm_compute; lia|].
  split; [vm_compute; reflexivity|].
  eapply (batches_of_a_stage_have_batch_rank Demo.shape Demo.stack
            id id id Demo.clock
            (λ _, Demo.breaks_even) (λ _, Demo.breaks_even)
            (λ _, Demo.breaks_even) (λ _, Demo.breaks_even)
            [1; 3; 5] [1; 3; 5] 2 0%Z "fab"
            (mkLocals [true; true; true] [1; 3; 5] (3 # 3)%Q) _
            (Demo.start false false));
    [vm_compute; lia | vm_compute; lia | vm_compute; reflexivity].
Defined.

(** A run without [verbose]. *)
Lemma quiet_run_prints_nothing_witness :
  ∃ l s',
    verbose (self (Demo.start false false)) = false ∧
    Demo.evaluate [0; 1; 2] [0; 1; 5] 2 (Demo.start false false)
    = Ok (l, s') ∧
    printed (out s') = printed (out (Demo.start false false)).
Proof.
  eexists _, _. split; [reflexivity|]. split; [vm_compute; reflexivity|].
  eapply (quiet_run_prints_nothing Demo.shape Demo.stack true
            id id id Demo.clock
            (λ _, Demo.breaks_even) (λ _, Demo.breaks_even)
            (λ _, Demo.breaks_even) (λ _, Demo.breaks_even)
            [0; 1; 2] [0; 1; 5] 2 _ (Demo.start false false));
    [reflexivity | vm_compute; reflexivity].
Defined.

(** A run of the four default attacks. *)
Lemma run_calls_only_listed_attacks_witness :
  ∃ l s',
    Demo.evaluate [0; 1; 2] [0; 1; 5] 2 (Demo.start false false)
    = Ok (l, s') ∧
    ∃ l0 v' names,
      attacks_to_run (self s') = Some l0 ∧ heap s' !! l0 = Some v' ∧
      perturb_names (out s')
      = perturb_names (out (Demo.start false false)) ++ names ∧
      Forall (λ a, a ∈ v') names.
Proof.
  eexists _, _. split; [vm_compute; reflexivity|].
  eapply (run_calls_only_listed_attacks Demo.shape Demo.stack true
            id id id Demo.clock
            (λ _, Demo.breaks_even) (λ _, Demo.breaks_even)
            (λ _, Demo.breaks_even) (λ _, Demo.breaks_even)
            [0; 1; 2] [0; 1; 5] 2 _ (Demo.start false false)).
  vm_compute. reflexivity.
Defined.

(** A list that names a targeted attack, run without [plus]. *)
Lemma run_without_plus_calls_no_targeted_attack_witness :
  ∃ l s',
    plus (Demo.auto false false) = false ∧
    attacks_to_run (Demo.auto false false) = Some default_attacks_loc ∧
    ({[default_attacks_loc := ["fab-t"; "square"]]} : gmap nat (list string))
      !! default_attacks_loc = Some ["fab-t"; "square"] ∧
    NoDup ["fab-t"; "square"] ∧
    Demo.evaluate [0; 1; 2] [0; 1; 5] 2
      (mkState (Demo.auto false false)
         {[default_attacks_loc := ["fab-t"; "square"]]} 0 [])
    = Ok (l, s') ∧
    ∃ names,
      perturb_names (out s') = perturb_names [] ++ names ∧
      ("apgd-t" ∉ names) ∧ ("fab-t" ∉ names).
Proof.
  assert (NoDup ["fab-t"; "square"]) as Hnd.
  { apply NoDup_cons. split; [|apply NoDup_singleton].
    intros Hin%list_elem_of_singleton. discriminate Hin. }
  eexists _, _. split; [reflexivity|]. split; [reflexivity|].
  split; [reflexivity|]. split; [exact Hnd|].
  split; [vm_compute; reflexivity|].
  eapply (run_without_plus_calls_no_targeted_attack Demo.shape Demo.stack true
            id id id
            Demo.clock (λ _, Demo.breaks_even) (λ _, Demo.breaks_even)
            (λ _, Demo.breaks_even) (λ _, Demo.breaks_even)
            [0; 1; 2] [0; 1; 5] 2 _
            (mkState (Demo.auto false false)
               {[default_attacks_loc := ["fab-t"; "square"]]} 0 [])
            _ default_attacks_loc ["fab-t"; "square"]);
    [reflexivity | reflexivity | reflexivity | exact Hnd
    | vm_compute; reflexivity].
Defined.

(** No sample. *)
Lemma run_on_nothing_raises_zero_division_witness :
  attacks_to_run (self (Demo.start false false)) = Some default_attacks_loc ∧
  heap (Demo.start false false) !! default_attacks_loc
  = Some default_attacks ∧
  (([] : list nat) = [] ∨ 2 = 0) ∧
  Demo.run [] [] 2 (Demo.start false false) = Raise ZeroDivisionError.
Proof.
  split; [reflexivity|]. split; [reflexivity|]. split; [by left|].
  apply (run_on_nothing_raises_zero_division Demo.shape Demo.stack true
           id id id Demo.clock
           (λ _, Demo.breaks_even) (λ _, Demo.breaks_even)
           (λ _, Demo.breaks_even) (λ _, Demo.breaks_even)
           [] [] 2 (Demo.start false false) default_attacks_loc
           default_attacks);
    [reflexivity | reflexivity | by left].
Defined.

(** The default list, with [plus] set for one update and cleared for the
    next. *)
Lemma plus_on_then_off_restores_the_list_witness :
  ∃ s1 s2,
    attacks_to_run (self (Demo.start false true)) = Some default_attacks_loc ∧
    heap (Demo.start false true) !! default_attacks_loc
    = Some default_attacks ∧
    ("apgd-t" ∉ default_attacks) ∧
    ("fab-t" ∉ default_attacks) ∧
    plus (self (Demo.start false true)) = true ∧
    update_attacks_list (Demo.start false true) = Ok ((), s1) ∧
    heap s1 !! default_attacks_loc
    = Some (default_attacks ++ ["apgd-t"; "fab-t"]) ∧
    update_attacks_list
      (mkState (set_plus false (self s1)) (heap s1) (ticks s1) (out s1))
    = Ok ((), s2) ∧
    heap s2 !! default_attacks_loc = Some default_attacks.
Proof.
  assert ("apgd-t" ∉ default_attacks) as Ha.
  { unfold default_attacks. intros Hin.
    repeat (apply elem_of_cons in Hin as [Heq|Hin]; [discriminate Heq|]).
    by apply elem_of_nil in Hin. }
  assert ("fab-t" ∉ default_attacks) as Hf.
  { unfold default_attacks. intros Hin.
    repeat (apply elem_of_cons in Hin as [Heq|Hin]; [discriminate Heq|]).
    by apply elem_of_nil in Hin. }
  eexists _, _. split; [reflexivity|]. split; [reflexivity|].
  split; [exact Ha|]. split; [exact Hf|]. split; [reflexivity|].
  split; [vm_compute; reflexivity|]. split; [vm_compute; reflexivity|].
  split; [vm_compute; reflexivity|].
  eapply (plus_on_then_off_restores_the_list (Demo.start false true) ()
            _ () _ default_attacks_loc default_attacks);
    [reflexivity | reflexivity | exact Ha | exact Hf | reflexivity
    | vm_compute; reflexivity | vm_compute; reflexivity].
Defined.

(** Three samples, the first two classified correctly, batches of two:
    2/3, from the one whole batch. *)
Lemma clean_accuracy_is_share_among_whole_batches_witness :
  length [0; 1; 2] = length [0; 1; 2] ∧
  0 < 2 ∧
  2 ≤ length [0; 1; 2] ∧
  (Z.of_nat (length [0; 1; 2]) ≤ 2 ^ 24)%Z ∧
  Demo.accuracy [0; 1; 2] [0; 1; 2] 2 (Demo.start true false)
  = Ok ((2 # 3)%Q,
        mkState (Demo.auto true false) module_heap 0
          [Print (MsgCleanAccuracy (2 # 3)%Q)]).
Proof.
  split; [reflexivity|]. split; [lia|]. split; [simpl; lia|].
  split; [simpl; lia|].
  apply (clean_accuracy_is_share_among_whole_batches id id id
           [0; 1; 2] [0; 1; 2] 2 (Demo.start true false));
    [reflexivity | lia | simpl; lia | simpl; lia].
Defined.

(** The individual run entered with [plus] set: six names, and the two
    targeted ones are not run. *)
Lemma individual_run_never_runs_targeted_attacks_witness :
  ∃ adv s',
    Demo.individually [0; 1; 2] [0; 1; 5] 2 (Demo.start false true)
    = Ok (adv, s') ∧
    adv !! "fab-t" = Some [0; 1; 2] ∧
    adv !! "apgd-ce" = Some [1; 1; 2] ∧
    (∃ names,
       perturb_names (out s')
       = perturb_names (out (Demo.start false true)) ++ names ∧
       ("apgd-t" ∉ names) ∧ ("fab-t" ∉ names)) ∧
    ∀ c r, c = "apgd-t" ∨ c = "fab-t" → adv !! c = Some r → r = [0; 1; 2].
Proof.
  eexists _, _. split; [vm_compute; reflexivity|].
  split; [vm_compute; reflexivity|]. split; [vm_compute; reflexivity|].
  eapply (individual_run_never_runs_targeted_attacks Demo.shape Demo.stack true
            id id id
            Demo.clock (λ _, Demo.breaks_even) (λ _, Demo.breaks_even)
            (λ _, Demo.breaks_even) (λ _, Demo.breaks_even)
            [0; 1; 2] [0; 1; 5] 2 (Demo.start false true)).
  vm_compute. reflexivity.
Defined.

(** The same run: an entry under ['fab-t'], which [plus] appended. *)
Lemma individual_run_has_one_entry_per_attack_witness :
  ∃ adv s',
    attacks_to_run (self (Demo.start false true)) = Some default_attacks_loc ∧
    heap (Demo.start false true) !! default_attacks_loc
    = Some default_attacks ∧
    Demo.individually [0; 1; 2] [0; 1; 5] 2 (Demo.start false true)
    = Ok (adv, s') ∧
    (is_Some (adv !! "fab-t")
     ↔ "fab-t" ∈ (if plus (self (Demo.start false true))
                  then extended default_attacks else default_attacks)).
Proof.
  eexists _, _. split; [reflexivity|]. split; [reflexivity|].
  split; [vm_compute; reflexivity|].
  eapply (individual_run_has_one_entry_per_attack Demo.shape Demo.stack true
            id id id
            Demo.clock (λ _, Demo.breaks_even) (λ _, Demo.breaks_even)
            (λ _, Demo.breaks_even) (λ _, Demo.breaks_even)
            [0; 1; 2] [0; 1; 5] 2 (Demo.start false true) _ _
            default_attacks_loc default_attacks "fab-t");
    [reflexivity | reflexivity | vm_compute; reflexivity].
Defined.

(** Two objects built with the default list. *)
Lemma objects_share_the_attack_list_witness :
  ∃ a1 a2 s',
    __init__ "Linf" (3 # 10)%Q None true default_attacks_loc false false
      "cuda" module_heap = Ok (a1, module_heap) ∧
    __init__ "L2" (5 # 10)%Q None false default_attacks_loc false false
      "cpu" module_heap = Ok (a2, module_heap) ∧
    module_heap !! default_attacks_loc = Some default_attacks ∧
    update_attacks_list (mkState (set_plus true a1) module_heap 0 [])
    = Ok ((), s') ∧
    ∃ l2, attacks_to_run a2 = Some l2 ∧
          heap s' !! l2 = Some (extended default_attacks).
Proof.
  eexists _, _, _. split; [vm_compute; reflexivity|].
  split; [vm_compute; reflexivity|]. split; [reflexivity|].
  split; [vm_compute; reflexivity|].
  eapply (objects_share_the_attack_list "Linf" (3 # 10)%Q None true false
            "cuda" "L2" (5 # 10)%Q None false false "cpu"
            default_attacks_loc module_heap _ module_heap _ module_heap
            default_attacks 0 [] ());
    [vm_compute; reflexivity | vm_compute; reflexivity | reflexivity
    | vm_compute; reflexivity].
Defined.


(** * The claims on the errors, the verbosity and the individual run, on
    concrete runs *)

(** The list ['apgd-ce', 'pgd', 'fab'] on three samples: the first stage
    leaves sample 1 robust, and the run raises at the dispatch of
    ['pgd'].  The norm ['L1'] is refused. *)
Lemma unknown_attack_and_unknown_norm_raise_witness :
  ("pgd" ∉ known_attacks) ∧
  (∃ startt l0 s0 l1 s1,
     Demo.entry [0; 1; 2] [0; 1; 5] 2
       (Demo.start_with ["apgd-ce"; "pgd"; "fab"] false false)
     = Ok ((startt, l0), s0) ∧
     attacks_to_run (self s0) = Some default_attacks_loc ∧
     heap s0 !! default_attacks_loc = Some (["apgd-ce"] ++ "pgd" :: ["fab"]) ∧
     Demo.stages [0; 1; 2] [0; 1; 5] 2 startt ["apgd-ce"] l0 s0
     = Ok (l1, s1) ∧
     num_true (robust_flags l1) ≠ 0 ∧
     (Demo.run [0; 1; 2] [0; 1; 5] 2
        (Demo.start_with ["apgd-ce"; "pgd"; "fab"] false false)
      = Raise (ValueError "Attack not supported")
      ∨ (length [0; 1; 5] < length [0; 1; 2] ∧
         Demo.run [0; 1; 2] [0; 1; 5] 2
           (Demo.start_with ["apgd-ce"; "pgd"; "fab"] false false)
         = Raise IndexError))) ∧
  ("L1" ∉ ["Linf"; "L2"]) ∧
  __init__ "L1" (3 # 10)%Q None true default_attacks_loc false false
    "cuda" module_heap = Raise AssertionError.
Proof.
  assert ("pgd" ∉ known_attacks) as Hbad.
  { unfold known_attacks. intros Hin.
    repeat (apply elem_of_cons in Hin as [Heq|Hin]; [discriminate Heq|]).
    by apply elem_of_nil in Hin. }
  assert ("L1" ∉ ["Linf"; "L2"]) as Hnorm.
  { intros Hin.
    repeat (apply elem_of_cons in Hin as [Heq|Hin]; [discriminate Heq|]).
    by apply elem_of_nil in Hin. }
  destruct (unknown_attack_and_unknown_norm_raise Demo.shape Demo.stack true
              id id id Demo.clock
              (λ _, Demo.breaks_even) (λ _, Demo.breaks_even)
              (λ _, Demo.breaks_even) (λ _, Demo.breaks_even) "pgd" Hbad)
    as (Hraise & _ & Hinit).
  split; [exact Hbad|]. split; [|split; [exact Hnorm | by apply Hinit]].
  eexists _, _, _, _, _. split; [vm_compute; reflexivity|].
  split; [reflexivity|]. split; [vm_compute; reflexivity|].
  split; [vm_compute; reflexivity|]. split; [vm_compute; discriminate|].
  eapply (Hraise [0; 1; 2] [0; 1; 5] 2
            (Demo.start_with ["apgd-ce"; "pgd"; "fab"] false false)
            _ _ _ _ _ default_attacks_loc ["apgd-ce"] ["fab"]);
    [vm_compute; reflexivity | reflexivity | vm_compute; reflexivity
    | vm_compute; reflexivity | vm_compute; discriminate].
Defined.



